(** * TizenRT: heap corruption checker, select-over-poll shim and
      Tiva interrupt controller

    A shallow embedding of

    - [os/mm/mm_heap/mm_check_heap_corruption.c]: the read-only walker
      over the boundary-tagged heap,
    - [os/fs/vfs/fs_select.c]: [select] implemented on top of [poll],
      and
    - [os/arch/arm/src/tiva/tiva_irq.c]: the interrupt controller
      logic of the Tiva parts,

    followed by the properties of the three. *)

From Stdlib Require Import ZArith Lia Ascii.
From stdpp Require Import base option list gmap sorting.

Local Open Scope Z_scope.

(** ** Configuration taken from headers outside this excerpt *)

(** [tinyara/mm/mm.h]: the bit of [preceding] that marks a node as
    allocated ([0x8000] with 16-bit sizes, [0x80000000] otherwise). *)
Class MmConfig : Type := { MM_ALLOC_BIT : Z }.

(** [poll.h]: the event flags the shim uses. *)
Class PollFlags : Type := {
  POLLIN : Z;
  POLLOUT : Z;
  POLLERR : Z;
  POLLHUP : Z
}.

(** ** Heap checker: data *)

Module Mm.

(** Addresses; [NULL] is address zero. *)
Definition addr := Z.
Definition NULL : addr := 0.

(** What the casts to [struct mm_allocnode_s *] and
    [struct mm_freenode_s *] read at one address: the common header
    ([size], [preceding]) and the two free-list links that overlay the
    payload of a free chunk. *)
Record node := mk_node {
  size : Z;
  preceding : Z;
  flink : addr;
  blink : addr
}.

(** [struct mm_heap_s], the fields the checker uses. *)
Record mm_heap_s := mk_heap {
  mm_nregions : nat;
  mm_heapstart : nat -> addr;
  mm_heapend : nat -> addr
}.

(** [enum node_type_e] *)
Inductive node_type_t := TYPE_CORRUPTED | TYPE_OVERFLOWED.

(** The lines [dbg] prints, with the values of their format arguments.
    Debug output is taken to be compiled in, so that [dbg] evaluates
    its arguments; a build without it prints nothing and reads none of
    them. *)
Inductive dbg_line :=
| LineHashes
| LineEquals
| LineErrNode
| LineErrNodeDot
| LineScenario (n : Z)
| LineErrFreeList
| LineCorrupted (a : addr) (sz prec : Z)
| LineOverflowed (a : addr) (sz : Z) (type : ascii)
| LineBlinkMismatch (bl bl_flink : addr)
| LineFlinkMismatch (fl fl_blink : addr).

(** What a run does besides reading memory. *)
Inductive event :=
| EvTake
| EvGive
| EvDbg (l : dbg_line).

Record state := mk_state {
  st_mem : gmap Z node;
  st_trace : list event
}.

(** A call returns, dereferences an address that holds no node
    ([NULL] included), or is still looping when the fuel is gone. *)
Inductive outcome (A : Type) :=
| Done (a : A)
| Fault (p : addr)
| Spin.
Arguments Done {A} a.
Arguments Fault {A} p.
Arguments Spin {A}.

Definition M (A : Type) : Type := state -> outcome A * state.

#[export] Instance M_ret : MRet M := fun A a s => (Done a, s).
#[export] Instance M_bind : MBind M := fun A B f m s =>
  match m s with
  | (Done a, s') => f a s'
  | (Fault p, s') => (Fault p, s')
  | (Spin, s') => (Spin, s')
  end.

Definition spin {A} : M A := fun s => (Spin, s).

(** ** Heap checker: primitives *)

(** The node a pointer refers to, when it refers to one. *)
Definition node_at (mem : gmap Z node) (p : addr) : option node :=
  if p =? NULL then None else mem !! p.

Definition load (p : addr) : M node := fun s =>
  match node_at (st_mem s) p with
  | Some n => (Done n, s)
  | None => (Fault p, s)
  end.

Definition emit (e : event) : M unit := fun s =>
  (Done tt, mk_state (st_mem s) (st_trace s ++ [e])).

Definition dbg (l : dbg_line) : M unit := emit (EvDbg l).
Definition mm_takesemaphore : M unit := emit EvTake.
Definition mm_givesemaphore : M unit := emit EvGive.

Definition rd_size (p : addr) : M Z := n ← load p; mret (size n).
Definition rd_preceding (p : addr) : M Z := n ← load p; mret (preceding n).
Definition rd_flink (p : addr) : M addr := n ← load p; mret (flink n).
Definition rd_blink (p : addr) : M addr := n ← load p; mret (blink n).

Section Checker.
Context `{MmConfig}.

(** [#define MM_PREV_NODE_SIZE(x) ((x)->preceding & ~MM_ALLOC_BIT)] *)
Definition MM_PREV_NODE_SIZE (x : addr) : M Z :=
  p ← rd_preceding x; mret (Z.land p (Z.lnot MM_ALLOC_BIT)).

(** [#define IS_ALLOCATED_NODE(x) ((x)->preceding & MM_ALLOC_BIT)] *)
Definition IS_ALLOCATED_NODE (x : addr) : M Z :=
  p ← rd_preceding x; mret (Z.land p MM_ALLOC_BIT).

(** [#define IS_FREE_NODE(x) (!IS_ALLOCATED_NODE(x))] *)
Definition IS_FREE_NODE (x : addr) : M bool :=
  a ← IS_ALLOCATED_NODE x; mret (a =? 0).

(** [dump_node], without the owner line of [CONFIG_DEBUG_MM_HEAPINFO].
    Both branches read [node->size] and [node->preceding], whatever
    [node] is. *)
Definition dump_node (node : addr) (type : node_type_t) : M unit :=
  match type with
  | TYPE_CORRUPTED =>
      sz ← rd_size node;
      pv ← MM_PREV_NODE_SIZE node;
      dbg (LineCorrupted node sz pv)
  | TYPE_OVERFLOWED =>
      sz ← rd_size node;
      al ← IS_ALLOCATED_NODE node;
      dbg (LineOverflowed node sz (if al =? 0 then "F"%char else "A"%char))
  end.

(** [if (!up_interrupt_context()) { mm_takesemaphore(heap); }] and its
    counterpart; [in_irq] is what [up_interrupt_context()] answers
    during the call. *)
Definition take_unless_irq (in_irq : bool) : M unit :=
  if in_irq then mret tt else mm_takesemaphore.
Definition give_unless_irq (in_irq : bool) : M unit :=
  if in_irq then mret tt else mm_givesemaphore.

(** The body of the [for] loop for one [(prev, node, next)]:
    [Some (-1)] is the [return -1] of a branch, [None] falls through to
    the loop's increment. *)
Definition check_node (in_irq : bool) (prev node next : addr) : M (option Z) :=
  back ← (if prev =? NULL then mret false
          else ps ← rd_size prev;
               np ← MM_PREV_NODE_SIZE node;
               mret (negb (ps =? np)));
  if back : bool then
    dbg LineHashes;;
    dbg LineErrNode;;
    dump_node prev TYPE_OVERFLOWED;;
    dump_node node TYPE_CORRUPTED;;
    dbg LineHashes;;
    give_unless_irq in_irq;;
    mret (Some (-1))
  else
    ns ← rd_size node;
    xp ← MM_PREV_NODE_SIZE next;
    if negb (ns =? xp) then
      dbg LineHashes;;
      dbg LineErrNodeDot;;
      dbg LineEquals;;
      dbg (LineScenario 1);;
      dbg LineEquals;;
      dump_node prev TYPE_OVERFLOWED;;
      dump_node node TYPE_CORRUPTED;;
      dbg LineEquals;;
      dbg (LineScenario 2);;
      dbg LineEquals;;
      dump_node node TYPE_OVERFLOWED;;
      dump_node next TYPE_CORRUPTED;;
      dbg LineHashes;;
      give_unless_irq in_irq;;
      mret (Some (-1))
    else
      fr ← IS_FREE_NODE node;
      if fr : bool then
        bl ← rd_blink node;
        bad_b ← (if bl =? NULL then mret false
                 else bf ← rd_flink bl; mret (negb (bf =? node)));
        if bad_b : bool then
          dbg LineHashes;;
          dbg LineErrFreeList;;
          dump_node prev TYPE_OVERFLOWED;;
          dump_node node TYPE_CORRUPTED;;
          bl' ← rd_blink node;
          bf' ← rd_flink bl';
          dbg (LineBlinkMismatch bl' bf');;
          dbg LineHashes;;
          give_unless_irq in_irq;;
          mret (Some (-1))
        else
          fl ← rd_flink node;
          bad_f ← (if fl =? NULL then mret false
                   else fb ← rd_blink fl; mret (negb (fb =? node)));
          if bad_f : bool then
            dbg LineHashes;;
            dbg LineErrFreeList;;
            dump_node prev TYPE_OVERFLOWED;;
            dump_node node TYPE_CORRUPTED;;
            fl' ← rd_flink node;
            fb' ← rd_blink fl';
            dbg (LineFlinkMismatch fl' fb');;
            dbg LineHashes;;
            give_unless_irq in_irq;;
            mret (Some (-1))
          else mret None
      else mret None.

(** The [for] loop of one region:
    [for (; node < heapend; prev = node, node = next,
           next = (char * )next + next->size)].
    The sum is formed in [Z]: it is the pointer the code forms as long
    as it stays below [2^32], where the 32-bit sum of the code would
    start again from zero. *)
Fixpoint walk_region (fuel : nat) (in_irq : bool) (heapend : addr)
    (prev node next : addr) : M (option Z) :=
  match fuel with
  | O => spin
  | S fuel' =>
      if node <? heapend then
        r ← check_node in_irq prev node next;
        match r with
        | Some code => mret (Some code)
        | None =>
            nsz ← rd_size next;
            walk_region fuel' in_irq heapend node next (next + nsz)
        end
      else mret None
  end.

(** One turn of the loop over regions, from taking the semaphore to
    giving it back; the first [next] is a sum in [Z] like the later
    ones. *)
Definition visit_region (fuel : nat) (in_irq : bool) (heap : mm_heap_s)
    (region : nat) : M (option Z) :=
  take_unless_irq in_irq;;
  let node := mm_heapstart heap region in
  sz ← rd_size node;
  r ← walk_region fuel in_irq (mm_heapend heap region) NULL node (node + sz);
  match r with
  | Some code => mret (Some code)
  | None => give_unless_irq in_irq;; mret None
  end.

(** [for (region = 0; region < heap->mm_nregions; region++)], with
    [todo] regions left. *)
Fixpoint visit_regions (fuel : nat) (in_irq : bool) (heap : mm_heap_s)
    (region todo : nat) : M Z :=
  match todo with
  | O => mret 0
  | S todo' =>
      r ← visit_region fuel in_irq heap region;
      match r with
      | Some code => mret code
      | None => visit_regions fuel in_irq heap (S region) todo'
      end
  end.

(** [mm_check_heap_corruption], for a non-null [heap]; [fuel] bounds
    the turns of the loop over the nodes of one region. *)
Definition mm_check_heap_corruption (fuel : nat) (in_irq : bool)
    (heap : mm_heap_s) : M Z :=
  visit_regions fuel in_irq heap 0%nat (mm_nregions heap).

End Checker.

End Mm.

(** ** select over poll: data *)

Module Select.

(** [int] is a 32-bit two's-complement word on the targets of this
    tree; a value that does not fit is reduced modulo [2^32]. *)
Definition INT_MIN : Z := - 2 ^ 31.
Definition INT_MAX : Z := 2 ^ 31 - 1.
Definition wrap_int (z : Z) : Z := (z + 2 ^ 31) mod 2 ^ 32 - 2 ^ 31.

Record timeval := mk_timeval { tv_sec : Z; tv_usec : Z }.

Record pollfd := mk_pollfd { fd : Z; events : Z; revents : Z }.

(** An [fd_set] as the set of descriptors whose bit is set; a pointer
    argument of [select] is [None] when it is [NULL]. *)
Abbreviation fd_set := (gset Z).

Definition FD_ISSET (d : Z) (set : fd_set) : bool := bool_decide (d ∈ set).
Definition FD_SET (d : Z) (set : fd_set) : fd_set := {[ d ]} ∪ set.

(** [set && FD_ISSET(fd, set)] *)
Definition watched (set : option fd_set) (d : Z) : bool :=
  match set with
  | Some s => FD_ISSET d s
  | None => false
  end.

(** What [kmm_zalloc] hands out: [n] zeroed entries. *)
Definition zero_pollfd : pollfd := mk_pollfd 0 0 0.
Definition kmm_zalloc (n : nat) : list pollfd := replicate n zero_pollfd.

Inductive errno_t := ENOMEM | EINVAL | Saved (e : Z).

(** The calls [select] makes to the rest of the system. *)
Inductive sel_event :=
| EvEnterCancel
| EvLeaveCancel
| EvAlloc (n : nat)
| EvPoll (pollset : list pollfd) (npfds : nat) (msec : Z)
| EvFree
| EvSetErrno (e : errno_t).

(** What [poll] answers: its return value, the [revents] it stores in
    entry [i] of the array, and the [errno] it leaves behind. *)
Record poll_reply := mk_reply {
  p_ret : Z;
  p_revents : nat -> Z;
  p_errno : Z
}.

(** The environment of one call: whether the allocation succeeds and
    how [poll] answers. *)
Record world := mk_world {
  alloc_ok : bool;
  poll : list pollfd -> nat -> Z -> poll_reply
}.

Record sel_result := mk_result {
  sel_ret : Z;
  sel_readfds : option fd_set;
  sel_writefds : option fd_set;
  sel_exceptfds : option fd_set;
  sel_trace : list sel_event
}.

Definition ERROR : Z := -1.

(** ** select over poll: functions *)

(** [msec = timeout->tv_sec * 1000 + timeout->tv_usec / 1000] is stored
    in an [int]: the sum, with C's truncating division, as that [int]
    holds it. *)
Definition _set_timeout (timeout : option timeval) : Z :=
  match timeout with
  | None => -1
  | Some tv => wrap_int (tv_sec tv * 1000 + tv_usec tv ÷ 1000)
  end.

Section Shim.
Context `{PollFlags}.

(** [pollset[ndx].fd = fd; pollset[ndx].events |= flag;], which is
    [None] when [ndx] is outside the array. *)
Definition mark (pollset : list pollfd) (ndx : nat) (d flag : Z)
    : option (list pollfd) :=
  p ← pollset !! ndx;
  Some (<[ndx := mk_pollfd d (Z.lor (events p) flag) (revents p)]> pollset).

(** [if (set && FD_ISSET(fd, set)) { mark; incr = 1; }] *)
Definition mark_if (set : option fd_set) (d flag : Z) (ndx : nat)
    (acc : list pollfd * nat) : option (list pollfd * nat) :=
  if watched set d
  then ps ← mark acc.1 ndx d flag; Some (ps, 1%nat)
  else Some acc.

(** The loop of [_init_desc_list] over the descriptors [fds] still to
    visit. *)
Fixpoint init_loop (fds : list Z) (readfds writefds exceptfds : option fd_set)
    (pollset : list pollfd) (ndx : nat) : option (list pollfd * nat) :=
  match fds with
  | [] => Some (pollset, ndx)
  | d :: fds' =>
      a1 ← mark_if readfds d POLLIN ndx (pollset, 0%nat);
      a2 ← mark_if writefds d POLLOUT ndx a1;
      a3 ← mark_if exceptfds d POLLERR ndx a2;
      init_loop fds' readfds writefds exceptfds a3.1 (ndx + a3.2)%nat
  end.

Definition _init_desc_list (nfds : Z) (readfds writefds exceptfds : option fd_set)
    (pollset : list pollfd) : option (list pollfd * nat) :=
  init_loop (seqZ 0 nfds) readfds writefds exceptfds pollset 0%nat.

Definition _reset_fds (set : option fd_set) : option fd_set :=
  match set with
  | Some _ => Some ∅
  | None => None
  end.

(** [if (set) { if (revents & mask) { FD_SET(fd, set); ret++; } }] *)
Definition back_if (set : option fd_set) (p : pollfd) (mask : Z) (ret : Z)
    : option fd_set * Z :=
  match set with
  | Some s =>
      if Z.land (revents p) mask =? 0 then (Some s, ret)
      else (Some (FD_SET (fd p) s), ret + 1)
  | None => (None, ret)
  end.

(** The loop of [_back_desc_list] over the entries of the array. *)
Fixpoint back_loop (pollset : list pollfd)
    (readfds writefds exceptfds : option fd_set) (ret : Z)
    : option fd_set * option fd_set * option fd_set * Z :=
  match pollset with
  | [] => (readfds, writefds, exceptfds, ret)
  | p :: rest =>
      let '(r, ret1) := back_if readfds p (Z.lor POLLIN POLLHUP) ret in
      let '(w, ret2) := back_if writefds p POLLOUT ret1 in
      let '(e, ret3) := back_if exceptfds p POLLERR ret2 in
      back_loop rest r w e ret3
  end.

Definition _back_desc_list (npfds : nat) (readfds writefds exceptfds : option fd_set)
    (pollset : list pollfd) : option fd_set * option fd_set * option fd_set * Z :=
  back_loop (take npfds pollset) readfds writefds exceptfds 0.

(** The counting loop at the head of [select]. *)
Fixpoint count_loop (fds : list Z) (readfds writefds exceptfds : option fd_set)
    (npfds : nat) : nat :=
  match fds with
  | [] => npfds
  | d :: fds' =>
      count_loop fds' readfds writefds exceptfds
        (if watched readfds d || watched writefds d || watched exceptfds d
         then S npfds else npfds)
  end.

(** [poll] stores [revents] in every entry it was given. *)
Definition polled (reply : poll_reply) (pollset : list pollfd) : list pollfd :=
  imap (fun i p => mk_pollfd (fd p) (events p) (p_revents reply i)) pollset.

(** [select]; [None] stands for a store outside the allocated array. *)
Definition select (w : world) (nfds : Z)
    (readfds writefds exceptfds : option fd_set) (timeout : option timeval)
    : option sel_result :=
  let npfds := count_loop (seqZ 0 nfds) readfds writefds exceptfds 0%nat in
  if (0 <? npfds)%nat && negb (alloc_ok w) then
    Some (mk_result ERROR readfds writefds exceptfds
            [EvEnterCancel; EvAlloc npfds; EvSetErrno ENOMEM; EvLeaveCancel])
  else
    let pre := EvEnterCancel :: (if (0 <? npfds)%nat then [EvAlloc npfds] else []) in
    let pollset := if (0 <? npfds)%nat then kmm_zalloc npfds else [] in
    '(pollset, ndx) ← _init_desc_list nfds readfds writefds exceptfds pollset;
    if negb (ndx =? npfds)%nat then
      Some (mk_result ERROR readfds writefds exceptfds
              (pre ++ [EvSetErrno EINVAL]))
    else
      let msec := _set_timeout timeout in
      let reply := poll w pollset npfds msec in
      let ret := p_ret reply in
      let pollset' := polled reply pollset in
      let '(r, wr, e, ret') :=
        if 0 <? ret
        then _back_desc_list npfds (_reset_fds readfds) (_reset_fds writefds)
               (_reset_fds exceptfds) pollset'
        else (_reset_fds readfds, _reset_fds writefds, _reset_fds exceptfds, ret) in
      Some (mk_result ret' r wr e
              (pre ++ [EvPoll pollset npfds msec]
                   ++ (if (0 <? npfds)%nat then [EvFree] else [])
                   ++ (if ret' <? 0 then [EvSetErrno (Saved (p_errno reply))] else [])
                   ++ [EvLeaveCancel])).

End Shim.

End Select.

(** ** Interrupt controller: configuration taken from headers outside
    this excerpt *)

(** [arch/irq.h], [chip.h] and [nvic.h]: the vector numbers, the
    register addresses and the bit masks [tiva_irq.c] names. The two
    macros with an argument, [NVIC_SYSH_PRIORITY(n)] and
    [NVIC_IRQ_PRIORITY(n)], are functions of it. *)
Class NvicMap : Type := {
  TIVA_IRQ_NMI : Z;
  TIVA_IRQ_HARDFAULT : Z;
  TIVA_IRQ_MEMFAULT : Z;
  TIVA_IRQ_BUSFAULT : Z;
  TIVA_IRQ_USAGEFAULT : Z;
  TIVA_IRQ_SVCALL : Z;
  TIVA_IRQ_SYSTICK : Z;
  TIVA_IRQ_INTERRUPTS : Z;
  NR_IRQS : Z;
  NR_VECTORS : Z;
  NVIC_IRQ0_31_ENABLE : Z;
  NVIC_IRQ32_63_ENABLE : Z;
  NVIC_IRQ64_95_ENABLE : Z;
  NVIC_IRQ96_127_ENABLE : Z;
  NVIC_IRQ0_31_CLEAR : Z;
  NVIC_SYSHCON : Z;
  NVIC_SYSHCON_MEMFAULTENA : Z;
  NVIC_SYSHCON_BUSFAULTENA : Z;
  NVIC_SYSHCON_USGFAULTENA : Z;
  NVIC_SYSTICK_CTRL : Z;
  NVIC_SYSTICK_CTRL_ENABLE : Z;
  NVIC_SYSH_PRIORITY : Z -> Z;
  NVIC_IRQ_PRIORITY : Z -> Z;
  NVIC_ICTR : Z;
  NVIC_ICTR_INTLINESNUM_MASK : Z;
  NVIC_SYSH4_7_PRIORITY : Z;
  NVIC_SYSH8_11_PRIORITY : Z;
  NVIC_SYSH12_15_PRIORITY : Z;
  NVIC_IRQ0_3_PRIORITY : Z;
  NVIC_SYSH_PRIORITY_DEFAULT : Z
}.

(** ** Interrupt controller: data *)

Module Tiva.

(** [uint32_t] and [uintptr_t]: a value is kept modulo [2^32]. *)
Definition u32 (z : Z) : Z := z mod 2 ^ 32.

Definition OK : Z := 0.
Definition ERROR : Z := -1.

(** The handlers [up_irqinitialize] attaches. *)
Inductive handler :=
| up_svcall
| up_hardfault
| up_memfault
| tiva_busfault
| tiva_usagefault.

(** What the functions do to the rest of the system: register
    accesses, [irq_attach], the store to [current_regs] and
    [irqenable]. *)
Inductive nvic_event :=
| RegGet (regaddr : Z)
| RegPut (regval regaddr : Z)
| IrqAttach (irq : Z) (h : handler)
| CurrentRegsNull
| IrqEnable.

(** What a read of each register returns. *)
Definition regfile := Z -> Z.

Definition getreg32 (regs : regfile) (regaddr : Z) : Z := u32 (regs regaddr).

Section Controller.
Context `{NvicMap}.

(** ** Interrupt controller: functions

    The build modelled has [CONFIG_ARCH_IRQPRIO] and none of
    [CONFIG_DEBUG], [CONFIG_DEBUG_IRQ], [CONFIG_ARCH_RAMVECTORS],
    [CONFIG_ARCH_CHIP_CC3200], [CONFIG_TIVA_GPIO_IRQS],
    [CONFIG_ARMV7M_USEBASEPRI], [CONFIG_ARMV7M_MPU] and
    [CONFIG_SUPPRESS_INTERRUPTS]; [DEBUGASSERT] and [tiva_dumpnvic]
    expand to nothing. *)

(** [#define DEFPRIORITY32] *)
Definition DEFPRIORITY32 : Z :=
  u32 (Z.lor (Z.lor (Z.lor (Z.shiftl NVIC_SYSH_PRIORITY_DEFAULT 24)
                           (Z.shiftl NVIC_SYSH_PRIORITY_DEFAULT 16))
                    (Z.shiftl NVIC_SYSH_PRIORITY_DEFAULT 8))
             NVIC_SYSH_PRIORITY_DEFAULT).

Definition NVIC_ENA_OFFSET : Z := 0.
Definition NVIC_CLRENA_OFFSET : Z := NVIC_IRQ0_31_CLEAR - NVIC_IRQ0_31_ENABLE.

(** [tiva_irqinfo]: the status returned and the contents of
    [*regaddr] and [*bit] afterwards, [out] being what the two held
    before. *)
Definition tiva_irqinfo (irq : Z) (out : Z * Z) (offset : Z) : Z * (Z * Z) :=
  if TIVA_IRQ_INTERRUPTS <=? irq then
    if NR_IRQS <=? irq then (ERROR, out)
    else if irq <? TIVA_IRQ_INTERRUPTS + 32 then
      (OK, (u32 (NVIC_IRQ0_31_ENABLE + offset),
            u32 (Z.shiftl 1 (irq - TIVA_IRQ_INTERRUPTS))))
    else if irq <? TIVA_IRQ_INTERRUPTS + 64 then
      (OK, (u32 (NVIC_IRQ32_63_ENABLE + offset),
            u32 (Z.shiftl 1 (irq - TIVA_IRQ_INTERRUPTS - 32))))
    else if (63 <? NR_VECTORS) && (irq <? TIVA_IRQ_INTERRUPTS + 96) then
      (OK, (u32 (NVIC_IRQ64_95_ENABLE + offset),
            u32 (Z.shiftl 1 (irq - TIVA_IRQ_INTERRUPTS - 64))))
    else if (95 <? NR_VECTORS) && (irq <? TIVA_IRQ_INTERRUPTS + 128) then
      (OK, (u32 (NVIC_IRQ96_127_ENABLE + offset),
            u32 (Z.shiftl 1 (irq - TIVA_IRQ_INTERRUPTS - 96))))
    else (ERROR, out)
  else
    if irq =? TIVA_IRQ_MEMFAULT then (OK, (NVIC_SYSHCON, NVIC_SYSHCON_MEMFAULTENA))
    else if irq =? TIVA_IRQ_BUSFAULT then (OK, (NVIC_SYSHCON, NVIC_SYSHCON_BUSFAULTENA))
    else if irq =? TIVA_IRQ_USAGEFAULT then (OK, (NVIC_SYSHCON, NVIC_SYSHCON_USGFAULTENA))
    else if irq =? TIVA_IRQ_SYSTICK then (OK, (NVIC_SYSTICK_CTRL, NVIC_SYSTICK_CTRL_ENABLE))
    else (ERROR, (NVIC_SYSHCON, out.2)).

(** [up_disable_irq]; [junk] is what the locals [regaddr] and [bit]
    hold before [tiva_irqinfo] stores to them. *)
Definition up_disable_irq (regs : regfile) (junk : Z * Z) (irq : Z)
    : list nvic_event :=
  let '(status, (regaddr, bit)) := tiva_irqinfo irq junk NVIC_CLRENA_OFFSET in
  if status =? 0 then
    if TIVA_IRQ_INTERRUPTS <=? irq then [RegPut bit regaddr]
    else
      let regval := getreg32 regs regaddr in
      [RegGet regaddr; RegPut (u32 (Z.land regval (Z.lnot bit))) regaddr]
  else [].

(** [up_enable_irq] *)
Definition up_enable_irq (regs : regfile) (junk : Z * Z) (irq : Z)
    : list nvic_event :=
  let '(status, (regaddr, bit)) := tiva_irqinfo irq junk NVIC_ENA_OFFSET in
  if status =? 0 then
    if TIVA_IRQ_INTERRUPTS <=? irq then [RegPut bit regaddr]
    else
      let regval := getreg32 regs regaddr in
      [RegGet regaddr; RegPut (u32 (Z.lor regval bit)) regaddr]
  else [].

(** [up_ack_irq] does nothing. *)
Definition up_ack_irq (irq : Z) : list nvic_event := [].

(** [up_prioritize_irq]: the value returned and the accesses made. *)
Definition up_prioritize_irq (regs : regfile) (irq priority : Z)
    : Z * list nvic_event :=
  let '(regaddr, irq') :=
    if irq <? TIVA_IRQ_INTERRUPTS
    then (u32 (NVIC_SYSH_PRIORITY irq), irq - 4)
    else (u32 (NVIC_IRQ_PRIORITY (irq - TIVA_IRQ_INTERRUPTS)),
          irq - TIVA_IRQ_INTERRUPTS) in
  let regval := getreg32 regs regaddr in
  let shift := Z.shiftl (Z.land irq' 3) 3 in
  let regval := u32 (Z.land regval (Z.lnot (Z.shiftl 0xff shift))) in
  let regval := u32 (Z.lor regval (Z.shiftl priority shift)) in
  (OK, [RegGet regaddr; RegPut regval regaddr]).

(** [for (i = n; i > 0; i--, regaddr += 4) { putreg32(val, regaddr); }]
    with [i] turns left. *)
Fixpoint put_loop (i : nat) (val regaddr : Z) : list nvic_event :=
  match i with
  | O => []
  | S i' => RegPut val regaddr :: put_loop i' val (u32 (regaddr + 4))
  end.

(** [up_irqinitialize] *)
Definition up_irqinitialize (regs : regfile) : list nvic_event :=
  let nintlines :=
    Z.land (getreg32 regs NVIC_ICTR) NVIC_ICTR_INTLINESNUM_MASK + 1 in
  [RegGet NVIC_ICTR]
  ++ put_loop (Z.to_nat nintlines) 0 (u32 NVIC_IRQ0_31_ENABLE)
  ++ [RegPut DEFPRIORITY32 NVIC_SYSH4_7_PRIORITY;
      RegPut DEFPRIORITY32 NVIC_SYSH8_11_PRIORITY;
      RegPut DEFPRIORITY32 NVIC_SYSH12_15_PRIORITY]
  ++ put_loop (Z.to_nat (Z.shiftl nintlines 3)) DEFPRIORITY32
       (u32 NVIC_IRQ0_3_PRIORITY)
  ++ [CurrentRegsNull;
      IrqAttach TIVA_IRQ_SVCALL up_svcall;
      IrqAttach TIVA_IRQ_HARDFAULT up_hardfault;
      IrqAttach TIVA_IRQ_MEMFAULT up_memfault;
      IrqAttach TIVA_IRQ_BUSFAULT tiva_busfault;
      IrqAttach TIVA_IRQ_USAGEFAULT tiva_usagefault;
      IrqEnable].

End Controller.

End Tiva.

(** * Notions used to state the properties of the heap checker *)

Module MmSpec.
Import Mm.

(** [runs mem m Q]: started on memory [mem] with any trace, [m] leaves
    the memory as it is, appends events [evs] to the trace and ends in
    an outcome [o] with [Q o evs]. *)
Definition runs (mem : gmap Z node) {A} (m : M A)
    (Q : outcome A -> list event -> Prop) : Prop :=
  forall t, exists o evs,
    m (mk_state mem t) = (o, mk_state mem (t ++ evs)) /\ Q o evs.

(** The four kinds of violation the walker tells apart. *)
Inductive violation :=
| BoundaryBackward
| BoundaryForward
| FreeListBackward
| FreeListForward.

(** The line of a report that is particular to one kind. *)
Definition marks (l : dbg_line) : option violation :=
  match l with
  | LineErrNode => Some BoundaryBackward
  | LineErrNodeDot => Some BoundaryForward
  | LineBlinkMismatch _ _ => Some FreeListBackward
  | LineFlinkMismatch _ _ => Some FreeListForward
  | _ => None
  end.

Definition reported (evs : list event) : list violation :=
  omap (fun e => match e with EvDbg l => marks l | _ => None end) evs.

(** The semaphore operations of a trace, in order. *)
Definition is_sem (e : event) : bool :=
  match e with
  | EvTake | EvGive => true
  | EvDbg _ => false
  end.

Definition sem_of (evs : list event) : list event := List.filter is_sem evs.

(** What [give_unless_irq] appends. *)
Definition give_evs (in_irq : bool) : list event :=
  if in_irq then [] else [EvGive].
Definition take_evs (in_irq : bool) : list event :=
  if in_irq then [] else [EvTake].

(** The lock as a trace drives it in task context: taken only when
    free, given only when held, and lines printed only while it is
    held. [None] is a breach of that discipline. *)
Fixpoint lock_run (held : bool) (evs : list event) : option bool :=
  match evs with
  | [] => Some held
  | EvTake :: rest => if held then None else lock_run true rest
  | EvGive :: rest => if held then lock_run false rest else None
  | EvDbg _ :: rest => if held then lock_run held rest else None
  end.

(** What one turn of the loop body can do: fall through in silence,
    or report one kind of violation, give the semaphore back (in task
    context) and return [-1]; a fault comes before any semaphore
    operation. *)
Definition node_post (in_irq : bool) (o : outcome (option Z))
    (evs : list event) : Prop :=
  match o with
  | Done None => evs = []
  | Done (Some c) =>
      c = -1 /\ (exists v, reported evs = [v]) /\ sem_of evs = give_evs in_irq
      /\ (in_irq = false -> lock_run true evs = Some false)
  | Fault _ => sem_of evs = [] /\ (in_irq = false -> lock_run true evs = Some true)
  | Spin => False
  end.

(** The same for the loop over one region, which may also run out of
    fuel. *)
Definition walk_post (in_irq : bool) (o : outcome (option Z))
    (evs : list event) : Prop :=
  match o with
  | Done None => evs = []
  | Done (Some c) =>
      c = -1 /\ (exists v, reported evs = [v]) /\ sem_of evs = give_evs in_irq
      /\ (in_irq = false -> lock_run true evs = Some false)
  | Fault _ | Spin =>
      sem_of evs = [] /\ (in_irq = false -> lock_run true evs = Some true)
  end.

(** One region, semaphore included. *)
Definition region_post (in_irq : bool) (o : outcome (option Z))
    (evs : list event) : Prop :=
  match o with
  | Done None => evs = take_evs in_irq ++ give_evs in_irq
  | Done (Some c) =>
      c = -1 /\ (exists v, reported evs = [v])
      /\ sem_of evs = take_evs in_irq ++ give_evs in_irq
      /\ (in_irq = false -> lock_run false evs = Some false)
  | Fault _ | Spin =>
      sem_of evs = take_evs in_irq
      /\ (in_irq = false -> lock_run false evs = Some true)
  end.

(** [k] regions visited one after the other. *)
Definition turns (in_irq : bool) (k : nat) : list event :=
  concat (replicate k (take_evs in_irq ++ give_evs in_irq)).

(** The whole call over [todo] regions. *)
Definition heap_post (in_irq : bool) (todo : nat) (o : outcome Z)
    (evs : list event) : Prop :=
  match o with
  | Done c =>
      ((c = 0 /\ evs = turns in_irq todo)
       \/ (c = -1 /\ (exists v, reported evs = [v])
           /\ exists k, (k < todo)%nat /\ sem_of evs = turns in_irq (S k)))
      /\ (in_irq = false -> lock_run false evs = Some false)
  | Fault _ | Spin =>
      (exists k, (k < todo)%nat /\ sem_of evs = turns in_irq k ++ take_evs in_irq)
      /\ (in_irq = false -> lock_run false evs = Some true)
  end.

Section HeapShape.
Context `{MmConfig}.

(** The nodes of a region in address order: from [a], advancing by
    [size] bytes over nodes of positive size, up to [heapend]. *)
Inductive chain (mem : gmap Z node) (heapend : addr) : addr -> list addr -> Prop :=
| chain_end : chain mem heapend heapend []
| chain_step a n l :
    node_at mem a = Some n ->
    0 < size n ->
    chain mem heapend (a + size n) l ->
    chain mem heapend a (a :: l).

(** Invariant 1 at node [a]: its size is what the node that follows it
    records as the preceding size. *)
Definition boundary_ok (mem : gmap Z node) (a : addr) : Prop :=
  exists n x,
    node_at mem a = Some n /\ node_at mem (a + size n) = Some x
    /\ size n = Z.land (preceding x) (Z.lnot MM_ALLOC_BIT).

(** A link of [a] is the list terminator or leads to a node whose
    opposite link leads back to [a]. *)
Definition link_ok (mem : gmap Z node) (a link : addr) (back : node -> addr) : Prop :=
  link = NULL \/ exists b, node_at mem link = Some b /\ back b = a.

(** Invariant 4 at node [a], which binds free nodes only. *)
Definition freelist_ok (mem : gmap Z node) (a : addr) : Prop :=
  forall n, node_at mem a = Some n ->
    Z.land (preceding n) MM_ALLOC_BIT = 0 ->
    link_ok mem a (blink n) flink /\ link_ok mem a (flink n) blink.

(** What the walker knows of [prev] when it stands on [node]: there
    is none yet, or its size was found to agree with [node]. *)
Definition prev_ok (mem : gmap Z node) (prev node : addr) : Prop :=
  prev = NULL
  \/ exists p n, node_at mem prev = Some p /\ node_at mem node = Some n
                 /\ size p = Z.land (preceding n) (Z.lnot MM_ALLOC_BIT).

Definition region_ok (mem : gmap Z node) (start heapend : addr) : Prop :=
  exists l, l <> [] /\ chain mem heapend start l
            /\ Forall (fun a => boundary_ok mem a /\ freelist_ok mem a) l.

Definition heap_ok (mem : gmap Z node) (heap : mm_heap_s) : Prop :=
  forall r, (r < mm_nregions heap)%nat ->
    region_ok mem (mm_heapstart heap r) (mm_heapend heap r).

(** An allocated node of size zero whose own [preceding] records size
    zero passes every test and is its own successor. *)
Definition stuck_node (n : node) : Prop :=
  size n = 0
  /\ Z.land (preceding n) (Z.lnot MM_ALLOC_BIT) = 0
  /\ Z.land (preceding n) MM_ALLOC_BIT <> 0.

(** [n] calls one after the other, with the codes they return. *)
Fixpoint repeat_check (n fuel : nat) (in_irq : bool) (heap : mm_heap_s)
    : M (list Z) :=
  match n with
  | O => mret []
  | S n' =>
      c ← mm_check_heap_corruption fuel in_irq heap;
      cs ← repeat_check n' fuel in_irq heap;
      mret (c :: cs)
  end.

End HeapShape.




(** How the outcome of one region's turn, when it is not a normal
    completion, ends the whole call. *)
Definition call_exit (o : outcome (option Z)) : outcome Z :=
  match o with
  | Done (Some code) => Done code
  | Done None => Done 0
  | Fault p => Fault p
  | Spin => Spin
  end.

Section WalkOrder.
Context `{MmConfig}.

(** The walk gets as far as node [b] of region [r]: the regions before
    [r] are sound, and so are the nodes [l] of region [r] that lie
    before [b], which is still inside the region. *)
Definition reaches_node (mem : gmap Z node) (heap : mm_heap_s) (r : nat)
    (l : list addr) (b : addr) : Prop :=
  (r < mm_nregions heap)%nat
  /\ (forall r', (r' < r)%nat ->
        region_ok mem (mm_heapstart heap r') (mm_heapend heap r'))
  /\ chain mem b (mm_heapstart heap r) l
  /\ Forall (fun a => boundary_ok mem a /\ freelist_ok mem a) l
  /\ b < mm_heapend heap r.

End WalkOrder.

(** ** Example heaps

    One region from [0x1000] to [0x1040] on a build with 32-bit sizes:
    a head node, a free chunk linked from the list head at [0x2000], an
    allocated chunk and the tail node. *)

Definition mm32 : MmConfig := {| MM_ALLOC_BIT := 0x80000000 |}.

Definition one_region : mm_heap_s :=
  mk_heap 1 (fun _ => 0x1000) (fun _ => 0x1040).

Definition sound_mem : gmap Z node :=
  list_to_map
    [ (0x1000, mk_node 16 0x80000000 7 9);
      (0x1010, mk_node 32 16 0 0x2000);
      (0x1030, mk_node 16 0x80000020 0 0);
      (0x1040, mk_node 16 0x80000010 0 0);
      (0x2000, mk_node 0 0 0x1010 0) ].


(** The head node of the region overwritten with size zero. *)
Definition stuck_mem : gmap Z node :=
  <[0x1000 := mk_node 0 0x80000000 7 9]> sound_mem.

(** What a call returns and which violations its report names, started
    with an empty trace. *)
Definition verdict `{MmConfig} (fuel : nat) (in_irq : bool) (heap : mm_heap_s)
    (mem : gmap Z node) : outcome Z * list violation :=
  let r := mm_check_heap_corruption fuel in_irq heap (mk_state mem []) in
  (r.1, reported (st_trace r.2)).

(** "The return value tells the four kinds of violation apart": two
    calls that report different kinds return different codes. *)
Definition codes_tell_kinds `{MmConfig} : Prop :=
  forall fuel in_irq heap mem fuel' in_irq' heap' mem' c c' v v',
    verdict fuel in_irq heap mem = (Done c, [v]) ->
    verdict fuel' in_irq' heap' mem' = (Done c', [v']) ->
    v <> v' -> c <> c'.

(** The allocated chunk at [0x1030] records a wrong preceding size. *)
Definition boundary_mem : gmap Z node :=
  <[0x1030 := mk_node 16 0x80000030 0 0]> sound_mem.

(** The list head no longer points back at the free chunk [0x1010]. *)
Definition freelist_mem : gmap Z node :=
  <[0x2000 := mk_node 0 0 0x1030 0]> sound_mem.

(** The chunk right after the head node records a wrong preceding
    size: the first pair of the region disagrees. *)
Definition first_pair_mem : gmap Z node :=
  <[0x1010 := mk_node 32 48 0 0x2000]> sound_mem.

(** The head node itself marked free, with a [blink] to the list head,
    which points elsewhere. *)
Definition head_free_mem : gmap Z node :=
  <[0x1000 := mk_node 16 0 0 0x2000]> sound_mem.


(** The two values the macros extract from a node's [preceding]. *)
Definition prev_size `{MmConfig} (n : node) : Z :=
  Z.land (preceding n) (Z.lnot MM_ALLOC_BIT).
Definition kind `{MmConfig} (n : node) : ascii :=
  if Z.land (preceding n) MM_ALLOC_BIT =? 0 then "F"%char else "A"%char.

(** The reports of the four branches, as lines. *)
Definition backward_report `{MmConfig} (prev : addr) (p : node) (a : addr) (n : node)
    : list dbg_line :=
  [LineHashes; LineErrNode;
   LineOverflowed prev (size p) (kind p);
   LineCorrupted a (size n) (prev_size n);
   LineHashes].

Definition forward_report `{MmConfig} (prev : addr) (p : node) (a : addr) (n : node)
    (next : addr) (x : node) : list dbg_line :=
  [LineHashes; LineErrNodeDot; LineEquals; LineScenario 1; LineEquals;
   LineOverflowed prev (size p) (kind p);
   LineCorrupted a (size n) (prev_size n);
   LineEquals; LineScenario 2; LineEquals;
   LineOverflowed a (size n) (kind n);
   LineCorrupted next (size x) (prev_size x);
   LineHashes].

Definition blink_report `{MmConfig} (prev : addr) (p : node) (a : addr) (n b : node)
    : list dbg_line :=
  [LineHashes; LineErrFreeList;
   LineOverflowed prev (size p) (kind p);
   LineCorrupted a (size n) (prev_size n);
   LineBlinkMismatch (blink n) (flink b);
   LineHashes].

Definition flink_report `{MmConfig} (prev : addr) (p : node) (a : addr) (n f : node)
    : list dbg_line :=
  [LineHashes; LineErrFreeList;
   LineOverflowed prev (size p) (kind p);
   LineCorrupted a (size n) (prev_size n);
   LineFlinkMismatch (flink n) (blink f);
   LineHashes].


(** The free chunk at [0x1010] given a [flink] to the allocated chunk
    at [0x1030], which does not point back. *)
Definition flink_mem : gmap Z node :=
  <[0x1010 := mk_node 32 16 0x1030 0x2000]> sound_mem.


End MmSpec.

(** * Notions used to state the properties of select *)

Module SelectSpec.
Import Select.

Section ShimSpec.
Context `{PollFlags}.

(** Some set asks for descriptor [d]. *)
Definition any_watched (readfds writefds exceptfds : option fd_set) (d : Z) : bool :=
  watched readfds d || watched writefds d || watched exceptfds d.

(** The [events] the three tests of [_init_desc_list] leave in a zeroed
    entry for descriptor [d]. *)
Definition interest (readfds writefds exceptfds : option fd_set) (d : Z) : Z :=
  let e1 := if watched readfds d then Z.lor 0 POLLIN else 0 in
  let e2 := if watched writefds d then Z.lor e1 POLLOUT else e1 in
  if watched exceptfds d then Z.lor e2 POLLERR else e2.

(** The array [_init_desc_list] is to build from the descriptors
    [fds]: one entry for each that some set asks for. *)
Definition entries (readfds writefds exceptfds : option fd_set) (fds : list Z)
    : list pollfd :=
  (fun d => mk_pollfd d (interest readfds writefds exceptfds d) 0)
    <$> List.filter (any_watched readfds writefds exceptfds) fds.

(** The descriptors of the entries whose [revents] meet [mask]. *)
Definition ready (mask : Z) (pollset : list pollfd) : list Z :=
  fd <$> List.filter (fun p => negb (Z.land (revents p) mask =? 0)) pollset.

End ShimSpec.

(** The members of a set argument; none when the pointer is [NULL]. *)
Definition members (set : option fd_set) : fd_set := default ∅ set.

(** [revents & mask] is not zero. *)
Definition flagged (rev mask : Z) : Prop := Z.land rev mask <> 0.

(** A set argument after the descriptors [l] were added to it. *)
Definition add_ready (l : list Z) (set : option fd_set) : option fd_set :=
  (fun s => list_to_set l ∪ s) <$> set.

(** How often [ret] was incremented for a set argument while the
    descriptors [l] were added to it. *)
Definition hits (l : list Z) (set : option fd_set) : Z :=
  match set with
  | Some _ => Z.of_nat (length l)
  | None => 0
  end.


(** The flag values of [poll.h]. *)
Definition posix_flags : PollFlags :=
  {| POLLIN := 0x01; POLLOUT := 0x04; POLLERR := 0x08; POLLHUP := 0x10 |}.

(** "The timeout handed to [poll] is negative for a null pointer and
    [tv_sec * 1000 + tv_usec / 1000] otherwise." *)
Definition timeout_exact `{PollFlags} : Prop :=
  forall wld nfds r w e timeout res pollset npfds msec,
    select wld nfds r w e timeout = Some res ->
    EvPoll pollset npfds msec ∈ sel_trace res ->
    match timeout with
    | None => msec < 0
    | Some tv => msec = tv_sec tv * 1000 + tv_usec tv ÷ 1000
    end.

(** A world in which the allocation succeeds and [poll] times out. *)
Definition idle_world : world :=
  mk_world true (fun _ _ _ => mk_reply 0 (fun _ => 0) 0).


(** A call that watches descriptors 1 and 3 for reading and 3 for
    writing; [poll] finds the first entry hung up and the second
    writable. *)
Definition demo_world : world :=
  mk_world true
    (fun _ _ _ =>
       mk_reply 2 (fun i => match i with
                            | O => 0x10
                            | S O => 0x04
                            | _ => 0
                            end) 0).

Definition demo_readfds : option fd_set := Some {[ 1; 3 ]}.
Definition demo_writefds : option fd_set := Some {[ 3 ]}.


Definition demo_pollset : list pollfd := [mk_pollfd 1 1 0; mk_pollfd 3 5 0].

Definition demo_result : sel_result :=
  mk_result 2 (Some {[ 1 ]}) (Some {[ 3 ]}) None
    [EvEnterCancel; EvAlloc 2; EvPoll demo_pollset 2 (-1); EvFree; EvLeaveCancel].


(** The event flags are told apart by the tests of
    [_back_desc_list]: none is zero, the three that are asked for
    share no bit with each other, and the hang-up flag, which counts
    as readable, shares none with the write and error flags. *)
Definition flags_distinct `{PollFlags} : Prop :=
  POLLIN <> 0 /\ POLLOUT <> 0 /\ POLLERR <> 0
  /\ Z.land POLLIN POLLOUT = 0
  /\ Z.land POLLIN POLLERR = 0
  /\ Z.land POLLOUT POLLERR = 0
  /\ Z.land POLLHUP POLLOUT = 0
  /\ Z.land POLLHUP POLLERR = 0.

(** How often a trace has an event of the kind picked by [pick]. *)
Definition occurs (pick : sel_event -> bool) (trace : list sel_event) : nat :=
  length (List.filter pick trace).

Definition is_alloc (ev : sel_event) : bool :=
  match ev with EvAlloc _ => true | _ => false end.
Definition is_free (ev : sel_event) : bool :=
  match ev with EvFree => true | _ => false end.
Definition is_poll (ev : sel_event) : bool :=
  match ev with EvPoll _ _ _ => true | _ => false end.
Definition is_enter (ev : sel_event) : bool :=
  match ev with EvEnterCancel => true | _ => false end.
Definition is_leave (ev : sel_event) : bool :=
  match ev with EvLeaveCancel => true | _ => false end.

(** A set argument with the descriptors outside [0, nfds) left out. *)
Definition below (nfds : Z) (set : option fd_set) : fd_set :=
  filter (fun d => 0 <= d < nfds) (members set).


(** A world without memory for the array. *)
Definition starved_world : world :=
  mk_world false (fun _ _ _ => mk_reply 0 (fun _ => 0) 0).

(** A world in which [poll] finds every entry ready for all that was
    asked of it. *)
Definition echo_world : world :=
  mk_world true
    (fun pollset _ _ =>
       mk_reply 1 (fun i => default 0 (events <$> pollset !! i)) 0).

Definition idle_result : sel_result :=
  mk_result 0 (Some ∅) (Some ∅) None
    [EvEnterCancel; EvAlloc 2; EvPoll demo_pollset 2 (-1); EvFree; EvLeaveCancel].

Definition echo_result : sel_result :=
  mk_result 3 (Some {[ 1; 3 ]}) (Some {[ 3 ]}) None
    [EvEnterCancel; EvAlloc 2; EvPoll demo_pollset 2 (-1); EvFree; EvLeaveCancel].


End SelectSpec.

(** * Notions used to state the properties of the interrupt controller *)

Module TivaSpec.
Import Tiva.

Section ControllerSpec.
Context `{NvicMap}.

(** The number of enable registers [tiva_irqinfo] knows of. *)
Definition banks : Z :=
  if 95 <? NR_VECTORS then 4 else if 63 <? NR_VECTORS then 3 else 2.

(** The enable register of bank [k]. *)
Definition enable_reg (k : Z) : Z :=
  if k =? 0 then NVIC_IRQ0_31_ENABLE
  else if k =? 1 then NVIC_IRQ32_63_ENABLE
  else if k =? 2 then NVIC_IRQ64_95_ENABLE
  else NVIC_IRQ96_127_ENABLE.

(** An external interrupt [tiva_irqinfo] has a register for. *)
Definition external (irq : Z) : Prop :=
  TIVA_IRQ_INTERRUPTS <= irq < NR_IRQS
  /\ irq < TIVA_IRQ_INTERRUPTS + 32 * banks.

(** A processor exception [tiva_irqinfo] has a bit for. *)
Definition switchable (irq : Z) : Prop :=
  irq < TIVA_IRQ_INTERRUPTS
  /\ (irq = TIVA_IRQ_MEMFAULT \/ irq = TIVA_IRQ_BUSFAULT
      \/ irq = TIVA_IRQ_USAGEFAULT \/ irq = TIVA_IRQ_SYSTICK).

(** The enable registers, moved by [offset], lie at four different
    addresses. *)
Definition banks_apart (offset : Z) : Prop :=
  forall j k, 0 <= j < 4 -> 0 <= k < 4 ->
    u32 (enable_reg j + offset) = u32 (enable_reg k + offset) -> j = k.

(** The priority register and the byte lane of [irq], as
    [up_prioritize_irq] picks them. *)
Definition priority_reg (irq : Z) : Z :=
  if irq <? TIVA_IRQ_INTERRUPTS
  then u32 (NVIC_SYSH_PRIORITY irq)
  else u32 (NVIC_IRQ_PRIORITY (irq - TIVA_IRQ_INTERRUPTS)).

Definition priority_lane (irq : Z) : Z :=
  if irq <? TIVA_IRQ_INTERRUPTS
  then (irq - 4) mod 4
  else (irq - TIVA_IRQ_INTERRUPTS) mod 4.

End ControllerSpec.

(** The register file after [regaddr] was given the value [regval]. *)
Definition reg_set (regs : regfile) (regaddr regval : Z) : regfile :=
  fun a => if a =? regaddr then regval else regs a.

(** An assignment in the layout of the ARMv7-M interrupt controller,
    for a part with 71 vectors. *)
Definition armv7m_map : NvicMap := {|
  TIVA_IRQ_NMI := 2;
  TIVA_IRQ_HARDFAULT := 3;
  TIVA_IRQ_MEMFAULT := 4;
  TIVA_IRQ_BUSFAULT := 5;
  TIVA_IRQ_USAGEFAULT := 6;
  TIVA_IRQ_SVCALL := 11;
  TIVA_IRQ_SYSTICK := 15;
  TIVA_IRQ_INTERRUPTS := 16;
  NR_IRQS := 71;
  NR_VECTORS := 71;
  NVIC_IRQ0_31_ENABLE := 0xe000e100;
  NVIC_IRQ32_63_ENABLE := 0xe000e104;
  NVIC_IRQ64_95_ENABLE := 0xe000e108;
  NVIC_IRQ96_127_ENABLE := 0xe000e10c;
  NVIC_IRQ0_31_CLEAR := 0xe000e180;
  NVIC_SYSHCON := 0xe000ed24;
  NVIC_SYSHCON_MEMFAULTENA := 0x10000;
  NVIC_SYSHCON_BUSFAULTENA := 0x20000;
  NVIC_SYSHCON_USGFAULTENA := 0x40000;
  NVIC_SYSTICK_CTRL := 0xe000e010;
  NVIC_SYSTICK_CTRL_ENABLE := 1;
  NVIC_SYSH_PRIORITY := fun n => 0xe000ed14 + 4 * Z.shiftr n 2;
  NVIC_IRQ_PRIORITY := fun n => 0xe000e400 + 4 * Z.shiftr n 2;
  NVIC_ICTR := 0xe000e004;
  NVIC_ICTR_INTLINESNUM_MASK := 0x1f;
  NVIC_SYSH4_7_PRIORITY := 0xe000ed18;
  NVIC_SYSH8_11_PRIORITY := 0xe000ed1c;
  NVIC_SYSH12_15_PRIORITY := 0xe000ed20;
  NVIC_IRQ0_3_PRIORITY := 0xe000e400;
  NVIC_SYSH_PRIORITY_DEFAULT := 0x80
|}.

(** A register file in which every register reads 2. *)
Definition demo_regs : regfile := fun _ => 2.

End TivaSpec.

(** * Properties of the heap checker *)

Module MmFacts.
Import Mm MmSpec.

(** ** Rules of the program logic *)

Lemma runs_ret mem {A} (a : A) Q : Q (Done a) [] -> runs mem (mret a) Q.
Proof.
  intros HQ t. exists (Done a), []. rewrite app_nil_r. split; [reflexivity | exact HQ].
Qed.

Lemma runs_spin mem {A} (Q : outcome A -> list event -> Prop) :
  Q Spin [] -> runs mem spin Q.
Proof.
  intros HQ t. exists Spin, []. rewrite app_nil_r. split; [reflexivity | exact HQ].
Qed.

Lemma runs_bind mem {A B} (m : M A) (f : A -> M B) Q :
  runs mem m (fun o e1 =>
    match o with
    | Done a => runs mem (f a) (fun o' e2 => Q o' (e1 ++ e2))
    | Fault p => Q (Fault p) e1
    | Spin => Q Spin e1
    end) ->
  runs mem (m ≫= f) Q.
Proof.
  intros Hm t. destruct (Hm t) as (o & e1 & Hrun & Hk).
  unfold mbind, M_bind. rewrite Hrun. destruct o as [a | p |].
  - destruct (Hk (t ++ e1)) as (o' & e2 & Hrun' & HQ).
    exists o', (e1 ++ e2). rewrite Hrun', app_assoc. split; [reflexivity | exact HQ].
  - exists (Fault p), e1. split; [reflexivity | exact Hk].
  - exists Spin, e1. split; [reflexivity | exact Hk].
Qed.

Lemma runs_load mem (p : addr) Q :
  match node_at mem p with
  | Some n => Q (Done n) []
  | None => Q (Fault p) []
  end ->
  runs mem (load p) Q.
Proof.
  intros HQ t. unfold load; simpl. destruct (node_at mem p) as [n |].
  - exists (Done n), []. rewrite app_nil_r. split; [reflexivity | exact HQ].
  - exists (Fault p), []. rewrite app_nil_r. split; [reflexivity | exact HQ].
Qed.

Lemma runs_emit mem (e : event) Q : Q (Done tt) [e] -> runs mem (emit e) Q.
Proof.
  intros HQ t. exists (Done tt), [e]. split; [reflexivity | exact HQ].
Qed.

Lemma runs_weaken mem {A} (m : M A) (Q Q' : outcome A -> list event -> Prop) :
  runs mem m Q -> (forall o evs, Q o evs -> Q' o evs) -> runs mem m Q'.
Proof.
  intros Hm Himp t. destruct (Hm t) as (o & evs & Hrun & HQ).
  exists o, evs. split; [exact Hrun | apply Himp, HQ].
Qed.

(** What a run on a state says about [runs], and back. *)
Lemma runs_elim mem {A} (m : M A) Q t :
  runs mem m Q ->
  exists evs, (m (mk_state mem t)).2 = mk_state mem (t ++ evs)
              /\ Q (m (mk_state mem t)).1 evs.
Proof.
  intros Hm. destruct (Hm t) as (o & evs & Hrun & HQ).
  exists evs. rewrite Hrun. split; [reflexivity | exact HQ].
Qed.

(** One step of symbolic execution. *)
Ltac runs_step :=
  lazymatch goal with
  | |- runs _ (mret _) _ => apply runs_ret
  | |- runs _ (_ ≫= _) _ => apply runs_bind
  | |- runs _ (load _) _ => apply runs_load
  | |- runs _ (emit _) _ => apply runs_emit
  | |- runs _ (dbg _) _ => apply runs_emit
  | |- runs _ mm_takesemaphore _ => apply runs_emit
  | |- runs _ mm_givesemaphore _ => apply runs_emit
  | |- runs _ spin _ => apply runs_spin
  | |- runs _ (rd_size _) _ => unfold rd_size
  | |- runs _ (rd_preceding _) _ => unfold rd_preceding
  | |- runs _ (rd_flink _) _ => unfold rd_flink
  | |- runs _ (rd_blink _) _ => unfold rd_blink
  | |- runs _ (MM_PREV_NODE_SIZE _) _ => unfold MM_PREV_NODE_SIZE
  | |- runs _ (IS_ALLOCATED_NODE _) _ => unfold IS_ALLOCATED_NODE
  | |- runs _ (IS_FREE_NODE _) _ => unfold IS_FREE_NODE
  | |- runs _ (dump_node _ _) _ => unfold dump_node
  | |- runs _ (give_unless_irq _) _ => unfold give_unless_irq
  | |- runs _ (take_unless_irq _) _ => unfold take_unless_irq
  | |- runs _ (if ?b then _ else _) _ => destruct b eqn:?
  | |- match node_at ?mem ?p with _ => _ end =>
      first
        [ match goal with
          | Hknown : node_at mem p = _ |- _ => rewrite Hknown
          end
        | let E := fresh "Hat" in destruct (node_at mem p) eqn:E ]
  end; cbv beta iota.

Ltac runs_go := repeat (runs_step; try congruence).

Lemma sem_of_app e1 e2 : sem_of (e1 ++ e2) = sem_of e1 ++ sem_of e2.
Proof. unfold sem_of. apply List.filter_app. Qed.

Lemma reported_app e1 e2 : reported (e1 ++ e2) = reported e1 ++ reported e2.
Proof. unfold reported. apply omap_app. Qed.

Lemma lock_run_app h e1 e2 :
  lock_run h (e1 ++ e2) = lock_run h e1 ≫= fun h' => lock_run h' e2.
Proof.
  revert h. induction e1 as [| e e1 IH]; intros h; [reflexivity |].
  destruct e, h; simpl; auto.
Qed.

Lemma sem_of_turns in_irq k : sem_of (turns in_irq k) = turns in_irq k.
Proof.
  unfold turns. induction k as [| k IH]; [reflexivity |].
  simpl. rewrite !sem_of_app, IH. destruct in_irq; reflexivity.
Qed.

Lemma reported_turns in_irq k : reported (turns in_irq k) = [].
Proof.
  unfold turns. induction k as [| k IH]; [reflexivity |].
  simpl. rewrite !reported_app, IH. destruct in_irq; reflexivity.
Qed.

Lemma lock_run_turns k : lock_run false (turns false k) = Some false.
Proof.
  unfold turns. induction k as [| k IH]; [reflexivity |]. simpl. exact IH.
Qed.

Lemma turns_S in_irq k :
  turns in_irq (S k) = take_evs in_irq ++ give_evs in_irq ++ turns in_irq k.
Proof. unfold turns. simpl. rewrite <- app_assoc. reflexivity. Qed.

Lemma turns_snoc in_irq k :
  turns in_irq (S k) = turns in_irq k ++ take_evs in_irq ++ give_evs in_irq.
Proof.
  unfold turns. replace (S k) with (k + 1)%nat by lia.
  rewrite replicate_add, concat_app. simpl. rewrite app_nil_r. reflexivity.
Qed.

Section CheckerFacts.
Context `{MmConfig}.

Lemma check_node_post mem in_irq prev node next :
  runs mem (check_node in_irq prev node next) (node_post in_irq).
Proof.
  unfold check_node.
  runs_go; simpl; destruct in_irq; simpl;
    repeat split; eauto; congruence.
Qed.

Lemma walk_region_post mem fuel in_irq heapend prev node next :
  runs mem (walk_region fuel in_irq heapend prev node next) (walk_post in_irq).
Proof.
  revert prev node next.
  induction fuel as [| fuel IH]; intros prev node next; simpl.
  - apply runs_spin. simpl. auto.
  - destruct (node <? heapend); [| apply runs_ret; reflexivity].
    apply runs_bind.
    eapply runs_weaken; [apply check_node_post |].
    intros [[c |] | p |] evs Hpost; simpl in Hpost |- *; try tauto.
    + apply runs_ret. rewrite app_nil_r. exact Hpost.
    + subst evs. runs_go; simpl; auto.
Qed.

Lemma visit_region_post mem fuel in_irq heap region :
  runs mem (visit_region fuel in_irq heap region) (region_post in_irq).
Proof.
  unfold visit_region. apply runs_bind.
  assert (Htake : runs mem (take_unless_irq in_irq)
            (fun o evs => o = Done tt /\ evs = take_evs in_irq)).
  { destruct in_irq; runs_go; auto. }
  eapply runs_weaken; [exact Htake |].
  intros o e0 [-> ->]. runs_go.
  - eapply runs_weaken; [apply walk_region_post |].
    intros [[c |] | p |] evs Hpost; simpl in Hpost |- *.
    + destruct Hpost as (-> & [v Hv] & Hsem & Hlock).
      apply runs_ret. rewrite !app_nil_r. unfold region_post.
      rewrite reported_app, sem_of_app, lock_run_app, Hv, Hsem.
      destruct in_irq; simpl; [intuition eauto; congruence |].
      rewrite (Hlock eq_refl). intuition eauto.
    + subst evs. destruct in_irq; runs_go; reflexivity.
    + destruct Hpost as [Hsem Hlock].
      rewrite sem_of_app, lock_run_app, Hsem, app_nil_r.
      destruct in_irq; simpl; [intuition congruence |].
      rewrite (Hlock eq_refl). auto.
    + destruct Hpost as [Hsem Hlock].
      rewrite sem_of_app, lock_run_app, Hsem, app_nil_r.
      destruct in_irq; simpl; [intuition congruence |].
      rewrite (Hlock eq_refl). auto.
  - destruct in_irq; simpl; auto; intuition congruence.
Qed.

Lemma visit_regions_post mem fuel in_irq heap region todo :
  runs mem (visit_regions fuel in_irq heap region todo) (heap_post in_irq todo).
Proof.
  revert region. induction todo as [| todo IH]; intros region; simpl.
  - apply runs_ret. simpl. split; [left; auto | auto].
  - apply runs_bind.
    eapply runs_weaken; [apply visit_region_post |].
    intros [[c |] | p |] e1 Hpost; simpl in Hpost |- *.
    + destruct Hpost as (-> & Hv & Hsem & Hlock).
      apply runs_ret. rewrite app_nil_r. simpl. split; [right | exact Hlock].
      repeat split; [exact Hv |]. exists 0%nat. split; [lia |].
      rewrite Hsem, turns_S. simpl. rewrite app_nil_r. reflexivity.
    + subst e1. eapply runs_weaken; [apply IH |].
      intros [c | p |] e2; simpl.
      * intros [[[-> ->] | (-> & [v Hv] & k & Hk & Hsem)] Hlock]; split.
        -- left. split; [reflexivity |]. rewrite turns_S, <- app_assoc. reflexivity.
        -- intros ->. simpl. auto.
        -- right. split; [reflexivity |]. split.
           ++ exists v. rewrite reported_app, Hv. destruct in_irq; reflexivity.
           ++ exists (S k). split; [lia |].
              rewrite sem_of_app, Hsem, (turns_S _ (S k)).
              destruct in_irq; reflexivity.
        -- intros ->. simpl. auto.
      * intros [(k & Hk & Hsem) Hlock]. split.
        -- exists (S k). split; [lia |].
           rewrite sem_of_app, Hsem, turns_S.
           destruct in_irq; reflexivity.
        -- intros ->. simpl. auto.
      * intros [(k & Hk & Hsem) Hlock]. split.
        -- exists (S k). split; [lia |].
           rewrite sem_of_app, Hsem, turns_S.
           destruct in_irq; reflexivity.
        -- intros ->. simpl. auto.
    + destruct Hpost as [Hsem Hlock]. split; [| exact Hlock].
      exists 0%nat. split; [lia | exact Hsem].
    + destruct Hpost as [Hsem Hlock]. split; [| exact Hlock].
      exists 0%nat. split; [lia | exact Hsem].
Qed.

Lemma turns_irq k : turns true k = [].
Proof. unfold turns. induction k as [| k IH]; [reflexivity | exact IH]. Qed.

(** ** A sound heap passes *)

Lemma node_at_NULL mem : node_at mem NULL = None.
Proof. reflexivity. Qed.

Lemma node_at_not_NULL mem p n : node_at mem p = Some n -> p <> NULL.
Proof. intros Hp ->. rewrite node_at_NULL in Hp. discriminate. Qed.

(** Turns the boolean tests met during symbolic execution into
    equations and looks for a contradiction. *)
Ltac tests_clash :=
  repeat match goal with
  | Ht : negb _ = true |- _ => apply negb_true_iff in Ht
  | Ht : negb _ = false |- _ => apply negb_false_iff in Ht
  | Ht : (_ =? _) = true |- _ => apply Z.eqb_eq in Ht
  | Ht : (_ =? _) = false |- _ => apply Z.eqb_neq in Ht
  | Ht : node_at _ ?p = Some _, Hp : ?p = NULL |- _ =>
      apply node_at_not_NULL in Ht; contradiction
  end;
  try congruence.

Lemma check_node_passes mem in_irq prev a n :
  node_at mem a = Some n ->
  prev_ok mem prev a ->
  boundary_ok mem a ->
  freelist_ok mem a ->
  runs mem (check_node in_irq prev a (a + size n))
    (fun o evs => o = Done None /\ evs = []).
Proof.
  intros Ha Hprev (n' & x & Ha' & Hx & Hsz) Hfree.
  assert (n' = n) as -> by congruence.
  specialize (Hfree n Ha).
  unfold check_node.
  destruct Hprev as [-> | (p & n' & Hp & Hn' & Hpsz)].
  - runs_go; tests_clash; auto.
    all: destruct Hfree as [Hb Hf]; [tests_clash; assumption |].
    all: try (destruct Hb as [Hb | (b & Hb & Hbb)]; tests_clash).
    all: try (destruct Hf as [Hf | (f & Hf & Hff)]; tests_clash).
  - assert (n' = n) as -> by congruence.
    runs_go; tests_clash; auto.
    all: destruct Hfree as [Hb Hf]; [tests_clash; assumption |].
    all: try (destruct Hb as [Hb | (b & Hb & Hbb)]; tests_clash).
    all: try (destruct Hf as [Hf | (f & Hf & Hff)]; tests_clash).
Qed.

Lemma chain_le mem heapend a l : chain mem heapend a l -> a <= heapend.
Proof. induction 1; lia. Qed.

Lemma walk_region_passes mem in_irq heapend a l :
  chain mem heapend a l ->
  Forall (fun a => boundary_ok mem a /\ freelist_ok mem a) l ->
  forall prev n fuel,
    node_at mem a = Some n ->
    prev_ok mem prev a ->
    (length l < fuel)%nat ->
    runs mem (walk_region fuel in_irq heapend prev a (a + size n))
      (fun o evs => o = Done None /\ evs = []).
Proof.
  induction 1 as [| a n0 l Ha Hpos Hchain IH]; intros Hok prev n fuel Hn Hprev Hfuel.
  - destruct fuel as [| fuel]; [simpl in Hfuel; lia |]. simpl.
    rewrite Z.ltb_irrefl. apply runs_ret. auto.
  - destruct fuel as [| fuel]; [simpl in Hfuel; lia |]. simpl in Hfuel |- *.
    assert (n = n0) as -> by congruence.
    apply chain_le in Hchain as Hle.
    destruct (Z.ltb_spec a heapend); [| lia].
    apply Forall_cons in Hok as [[Hb Hf] Hok].
    apply runs_bind.
    eapply runs_weaken; [apply (check_node_passes mem in_irq prev a n0); auto |].
    intros o evs [-> ->]. simpl.
    destruct Hb as (n' & x & Ha' & Hx & Hsz).
    assert (n' = n0) as -> by congruence.
    runs_go. simpl.
    apply IH; [exact Hok | exact Hx | | lia].
    right. exists n0, x. auto.
Qed.

Lemma visit_region_passes mem in_irq heap region l fuel :
  l <> [] ->
  chain mem (mm_heapend heap region) (mm_heapstart heap region) l ->
  Forall (fun a => boundary_ok mem a /\ freelist_ok mem a) l ->
  (length l < fuel)%nat ->
  runs mem (visit_region fuel in_irq heap region)
    (fun o evs => o = Done None /\ evs = take_evs in_irq ++ give_evs in_irq).
Proof.
  intros Hne Hchain Hok Hfuel.
  assert (exists n, node_at mem (mm_heapstart heap region) = Some n) as [n Hn].
  { inversion Hchain; subst; [congruence | eauto]. }
  unfold visit_region.
  destruct in_irq; runs_go.
  all: eapply runs_weaken;
    [ eapply walk_region_passes; eauto; left; reflexivity |].
  all: intros o evs [-> ->]; runs_go; auto.
Qed.

Lemma visit_regions_passes mem in_irq heap fuel todo region :
  (forall r, (region <= r < region + todo)%nat ->
     exists l, l <> []
       /\ chain mem (mm_heapend heap r) (mm_heapstart heap r) l
       /\ Forall (fun a => boundary_ok mem a /\ freelist_ok mem a) l
       /\ (length l < fuel)%nat) ->
  runs mem (visit_regions fuel in_irq heap region todo)
    (fun o evs => o = Done 0 /\ evs = turns in_irq todo).
Proof.
  revert region. induction todo as [| todo IH]; intros region Hall; simpl.
  - apply runs_ret. auto.
  - destruct (Hall region ltac:(lia)) as (l & Hne & Hchain & Hok & Hfuel).
    apply runs_bind.
    eapply runs_weaken; [eapply visit_region_passes; eauto |].
    intros o evs [-> ->].
    eapply runs_weaken; [apply IH; intros r Hr; apply Hall; lia |].
    intros o evs [-> ->]. split; [reflexivity |].
    rewrite turns_S, <- app_assoc. reflexivity.
Qed.

(** One fuel bound serves all regions of a sound heap. *)
Lemma heap_ok_bound mem heap :
  heap_ok mem heap ->
  forall count, (count <= mm_nregions heap)%nat ->
  exists bound, forall r, (r < count)%nat ->
    exists l, l <> []
      /\ chain mem (mm_heapend heap r) (mm_heapstart heap r) l
      /\ Forall (fun a => boundary_ok mem a /\ freelist_ok mem a) l
      /\ (length l < bound)%nat.
Proof.
  intros Hok. induction count as [| count IH]; intros Hle.
  - exists 0%nat. intros r Hr. lia.
  - destruct IH as [bound Hbound]; [lia |].
    destruct (Hok count ltac:(lia)) as (l & Hne & Hchain & Hall).
    exists (bound `max` S (length l))%nat. intros r Hr.
    destruct (decide (r = count)) as [-> | Hneq].
    + exists l. repeat split; auto. lia.
    + destruct (Hbound r ltac:(lia)) as (l' & ? & ? & ? & ?).
      exists l'. repeat split; auto. lia.
Qed.

Lemma check_passes mem in_irq heap fuel :
  (forall r, (r < mm_nregions heap)%nat ->
     exists l, l <> []
       /\ chain mem (mm_heapend heap r) (mm_heapstart heap r) l
       /\ Forall (fun a => boundary_ok mem a /\ freelist_ok mem a) l
       /\ (length l < fuel)%nat) ->
  runs mem (mm_check_heap_corruption fuel in_irq heap)
    (fun o evs => o = Done 0 /\ evs = turns in_irq (mm_nregions heap)).
Proof.
  intros Hall. unfold mm_check_heap_corruption.
  apply visit_regions_passes. intros r Hr. apply Hall. lia.
Qed.

Lemma repeat_check_passes mem in_irq heap fuel n :
  runs mem (mm_check_heap_corruption fuel in_irq heap)
    (fun o evs => o = Done 0 /\ evs = turns in_irq (mm_nregions heap)) ->
  runs mem (repeat_check n fuel in_irq heap)
    (fun o evs => o = Done (replicate n 0)
       /\ evs = concat (replicate n (turns in_irq (mm_nregions heap)))).
Proof.
  intros Hone. induction n as [| n IH]; simpl.
  - apply runs_ret. auto.
  - apply runs_bind. eapply runs_weaken; [exact Hone |].
    intros o e1 [-> ->]. apply runs_bind.
    eapply runs_weaken; [exact IH |].
    intros o e2 [-> ->]. apply runs_ret.
    rewrite app_nil_r. auto.
Qed.

(** C3. On a heap in which every region is a chain of nodes from its
    start to its end, each adjacent pair agreeing on the size of the
    earlier node and each free node having symmetric links, the checker
    returns 0 (given fuel beyond the longest chain), leaves the memory
    as it found it, and so returns 0 however often it is called
    again. *)
Theorem sound_heap_passes mem heap in_irq :
  heap_ok mem heap ->
  exists bound, forall fuel t, (bound <= fuel)%nat ->
    mm_check_heap_corruption fuel in_irq heap (mk_state mem t)
      = (Done 0, mk_state mem (t ++ turns in_irq (mm_nregions heap)))
    /\ forall n,
        repeat_check n fuel in_irq heap (mk_state mem t)
        = (Done (replicate n 0),
           mk_state mem
             (t ++ concat (replicate n (turns in_irq (mm_nregions heap))))).
Proof.
  intros Hok.
  destruct (heap_ok_bound mem heap Hok (mm_nregions heap)) as [bound Hbound]; [lia |].
  exists bound. intros fuel t Hfuel.
  assert (Hone : runs mem (mm_check_heap_corruption fuel in_irq heap)
            (fun o evs => o = Done 0 /\ evs = turns in_irq (mm_nregions heap))).
  { apply check_passes. intros r Hr.
    destruct (Hbound r Hr) as (l & ? & ? & ? & ?).
    exists l. repeat split; auto. lia. }
  split.
  - destruct (Hone t) as (o & evs & Hrun & -> & ->). exact Hrun.
  - intros n.
    destruct (repeat_check_passes mem in_irq heap fuel n Hone t)
      as (o & evs & Hrun & -> & ->).
    exact Hrun.
Qed.

(** ** Termination of the walk *)

Lemma walk_region_halts mem in_irq heapend a l :
  chain mem heapend a l ->
  forall prev next fuel,
    (forall n, node_at mem a = Some n -> next = a + size n) ->
    (length l < fuel)%nat ->
    runs mem (walk_region fuel in_irq heapend prev a next)
      (fun o _ => o <> Spin).
Proof.
  induction 1 as [| a n0 l Ha Hpos Hchain IH]; intros prev next fuel Hnext Hfuel.
  - destruct fuel as [| fuel]; [simpl in Hfuel; lia |]. simpl.
    rewrite Z.ltb_irrefl. apply runs_ret. discriminate.
  - destruct fuel as [| fuel]; [simpl in Hfuel; lia |]. simpl in Hfuel |- *.
    rewrite (Hnext n0 Ha).
    destruct (a <? heapend); [| apply runs_ret; discriminate].
    apply runs_bind.
    eapply runs_weaken; [apply check_node_post |].
    intros [[c |] | p |] evs Hpost; simpl in Hpost |- *;
      [apply runs_ret; discriminate | | discriminate | contradiction].
    runs_go; try discriminate.
    apply IH; [| lia]. intros n' Hn'. congruence.
Qed.

Lemma visit_region_halts mem in_irq heap region l fuel :
  chain mem (mm_heapend heap region) (mm_heapstart heap region) l ->
  (length l < fuel)%nat ->
  runs mem (visit_region fuel in_irq heap region) (fun o _ => o <> Spin).
Proof.
  intros Hchain Hfuel. unfold visit_region.
  destruct in_irq; runs_go; try discriminate.
  all: eapply runs_weaken;
    [ eapply walk_region_halts; [exact Hchain | | exact Hfuel];
      intros n' Hn'; congruence |].
  all: intros [[c |] | p |] evs Ho; try congruence; runs_go; discriminate.
Qed.

Lemma check_node_stuck mem in_irq prev a n :
  node_at mem a = Some n ->
  stuck_node n ->
  prev = NULL \/ prev = a ->
  runs mem (check_node in_irq prev a a) (fun o evs => o = Done None /\ evs = []).
Proof.
  intros Ha (Hsz & Hprev & Halloc) Hp. unfold check_node.
  destruct Hp as [-> | ->]; runs_go; tests_clash; auto.
Qed.

Lemma walk_region_spins mem in_irq heapend a n fuel :
  node_at mem a = Some n ->
  stuck_node n ->
  a < heapend ->
  forall prev, prev = NULL \/ prev = a ->
  runs mem (walk_region fuel in_irq heapend prev a a)
    (fun o evs => o = Spin /\ evs = []).
Proof.
  intros Ha Hstuck Hlt.
  induction fuel as [| fuel IH]; intros prev Hprev; simpl.
  - apply runs_spin. auto.
  - destruct (Z.ltb_spec a heapend); [| lia].
    apply runs_bind.
    eapply runs_weaken; [apply (check_node_stuck mem in_irq prev a n); auto |].
    intros o evs [-> ->]. runs_go. simpl.
    destruct Hstuck as (-> & _). rewrite Z.add_0_r.
    apply IH. right. reflexivity.
Qed.

(** C9. The walk of a region ends when the nodes reached from the
    region's start by advancing [size] bytes all have positive size and
    lead to the region's end: fuel beyond their number is never used up.
    Nothing in the loop enforces this: on a region whose first node is
    allocated, has size zero and records a preceding size of zero, the
    walk never ends, whatever the fuel. *)
Theorem region_walk_termination mem heap region in_irq :
  (forall l fuel t,
     chain mem (mm_heapend heap region) (mm_heapstart heap region) l ->
     (length l < fuel)%nat ->
     (visit_region fuel in_irq heap region (mk_state mem t)).1 <> Spin)
  /\ (forall n fuel t,
     node_at mem (mm_heapstart heap region) = Some n ->
     stuck_node n ->
     mm_heapstart heap region < mm_heapend heap region ->
     (visit_region fuel in_irq heap region (mk_state mem t)).1 = Spin).
Proof.
  split.
  - intros l fuel t Hchain Hfuel.
    destruct (visit_region_halts mem in_irq heap region l fuel Hchain Hfuel t)
      as (o & evs & Hrun & Ho).
    rewrite Hrun. exact Ho.
  - intros n fuel t Hn Hstuck Hlt.
    assert (Hrun : runs mem (visit_region fuel in_irq heap region)
              (fun o _ => o = Spin)).
    { unfold visit_region. destruct in_irq; runs_go.
      all: destruct Hstuck as (Hsz & Hstuck); rewrite Hsz, Z.add_0_r.
      all: eapply runs_weaken;
        [ apply (walk_region_spins mem _ _ _ n); auto; split; auto |].
      all: intros o evs [-> _]; reflexivity. }
    destruct (Hrun t) as (o & evs & Heq & ->). rewrite Heq. reflexivity.
Qed.

(** ** What each branch of the loop body reports *)

Ltac report_done irq :=
  unfold check_node, prev_size, kind in *;
  runs_go; tests_clash; try (destruct_and?; tests_clash);
  try (split; [reflexivity | destruct irq; reflexivity]).

(** The first test: [prev] exists and its size is not what [node]
    records. *)
Lemma backward_mismatch_reported mem (in_irq : bool) prev a next p n :
  node_at mem prev = Some p ->
  node_at mem a = Some n ->
  size p <> prev_size n ->
  runs mem (check_node in_irq prev a next)
    (fun o evs => o = Done (Some (-1))
       /\ evs = (EvDbg <$> backward_report prev p a n) ++ give_evs in_irq).
Proof. intros Hp Hn Hne. report_done in_irq. Qed.

(** The second test, on a node that has a predecessor. *)
Lemma forward_mismatch_reported mem (in_irq : bool) prev a next p n x :
  node_at mem prev = Some p ->
  node_at mem a = Some n ->
  node_at mem next = Some x ->
  size p = prev_size n ->
  size n <> prev_size x ->
  runs mem (check_node in_irq prev a next)
    (fun o evs => o = Done (Some (-1))
       /\ evs = (EvDbg <$> forward_report prev p a n next x) ++ give_evs in_irq).
Proof. intros Hp Hn Hx Heq Hne. report_done in_irq. Qed.

(** The second test on the first node of a region, where [prev] is
    still [NULL]: the report breaks off at [dump_node(prev, ...)]. *)
Lemma forward_mismatch_first_faults mem (in_irq : bool) a next n x :
  node_at mem a = Some n ->
  node_at mem next = Some x ->
  size n <> prev_size x ->
  runs mem (check_node in_irq NULL a next)
    (fun o evs => o = Fault NULL
       /\ evs = EvDbg <$> [LineHashes; LineErrNodeDot; LineEquals;
                           LineScenario 1; LineEquals]).
Proof. intros Hn Hx Hne. report_done in_irq. Qed.

(** The free-list tests on a node that has a predecessor. *)
Lemma blink_mismatch_reported mem (in_irq : bool) prev a next p n x b :
  node_at mem prev = Some p ->
  node_at mem a = Some n ->
  node_at mem next = Some x ->
  size p = prev_size n ->
  size n = prev_size x ->
  kind n = "F"%char ->
  node_at mem (blink n) = Some b ->
  flink b <> a ->
  runs mem (check_node in_irq prev a next)
    (fun o evs => o = Done (Some (-1))
       /\ evs = (EvDbg <$> blink_report prev p a n b) ++ give_evs in_irq).
Proof.
  intros Hp Hn Hx Heq1 Heq2 Hfree Hb Hne.
  unfold kind in Hfree.
  destruct (Z.land (preceding n) MM_ALLOC_BIT =? 0) eqn:Hbit; [| discriminate].
  report_done in_irq.
Qed.

Lemma flink_mismatch_reported mem (in_irq : bool) prev a next p n x f :
  node_at mem prev = Some p ->
  node_at mem a = Some n ->
  node_at mem next = Some x ->
  size p = prev_size n ->
  size n = prev_size x ->
  kind n = "F"%char ->
  link_ok mem a (blink n) flink ->
  node_at mem (flink n) = Some f ->
  blink f <> a ->
  runs mem (check_node in_irq prev a next)
    (fun o evs => o = Done (Some (-1))
       /\ evs = (EvDbg <$> flink_report prev p a n f) ++ give_evs in_irq).
Proof.
  intros Hp Hn Hx Heq1 Heq2 Hfree Hb Hf Hne.
  unfold kind in Hfree.
  destruct (Z.land (preceding n) MM_ALLOC_BIT =? 0) eqn:Hbit; [| discriminate].
  destruct Hb as [Hb | (b & Hb & Hbb)]; report_done in_irq.
Qed.

(** The free-list tests on the first node of a region. *)
Lemma blink_mismatch_first_faults mem (in_irq : bool) a next n x b :
  node_at mem a = Some n ->
  node_at mem next = Some x ->
  size n = prev_size x ->
  kind n = "F"%char ->
  node_at mem (blink n) = Some b ->
  flink b <> a ->
  runs mem (check_node in_irq NULL a next)
    (fun o evs => o = Fault NULL
       /\ evs = EvDbg <$> [LineHashes; LineErrFreeList]).
Proof.
  intros Hn Hx Heq2 Hfree Hb Hne.
  unfold kind in Hfree.
  destruct (Z.land (preceding n) MM_ALLOC_BIT =? 0) eqn:Hbit; [| discriminate].
  report_done in_irq.
Qed.

(** An allocated node is not put to the free-list tests: whatever its
    payload holds where the links would be, it passes once its two
    boundaries agree. *)
Lemma allocated_node_skips_links mem (in_irq : bool) prev a next n x :
  prev_ok mem prev a ->
  node_at mem a = Some n ->
  node_at mem next = Some x ->
  size n = prev_size x ->
  kind n = "A"%char ->
  runs mem (check_node in_irq prev a next)
    (fun o evs => o = Done None /\ evs = []).
Proof.
  intros Hprev Hn Hx Heq Halloc.
  unfold kind in Halloc.
  destruct (Z.land (preceding n) MM_ALLOC_BIT =? 0) eqn:Hbit; [discriminate |].
  destruct Hprev as [-> | (p & n' & Hp & Hn' & Hpsz)].
  - report_done in_irq.
  - assert (n' = n) as -> by congruence. report_done in_irq.
Qed.

(** ** The walk up to the first violation *)

Lemma last_cons_default {A} (a d : A) l : List.last (a :: l) d = List.last l a.
Proof.
  revert a d. induction l as [| b l IH]; intros a d; [reflexivity |].
  change (List.last (b :: l) d = List.last (b :: l) a).
  rewrite !IH. reflexivity.
Qed.

(** If the nodes [l] from [a] up to [b] are sound and [b] lies inside
    the region, the walk started at [a] does at [b] whatever the loop
    body does there, provided that is not falling through. *)
Lemma walk_region_reaches mem in_irq heapend b nb a l :
  chain mem b a l ->
  Forall (fun a => boundary_ok mem a /\ freelist_ok mem a) l ->
  b < heapend ->
  node_at mem b = Some nb ->
  forall prev n fuel (Q : outcome (option Z) -> list event -> Prop),
    node_at mem a = Some n ->
    prev_ok mem prev a ->
    (length l < fuel)%nat ->
    runs mem (check_node in_irq (List.last l prev) b (b + size nb))
      (fun o evs => o <> Done None /\ Q o evs) ->
    runs mem (walk_region fuel in_irq heapend prev a (a + size n)) Q.
Proof.
  induction 1 as [| a n0 l Ha Hpos Hchain IH];
    intros Hok Hlt Hnb prev n fuel Q Hn Hprev Hfuel Hbody.
  - destruct fuel as [| fuel]; [simpl in Hfuel; lia |]. simpl in Hbody |- *.
    assert (n = nb) as -> by congruence.
    destruct (Z.ltb_spec b heapend); [| lia].
    apply runs_bind. eapply runs_weaken; [exact Hbody |].
    intros [[c |] | p |] evs [Hne HQ]; simpl; try congruence.
    apply runs_ret. rewrite app_nil_r. exact HQ.
  - destruct fuel as [| fuel]; [simpl in Hfuel; lia |]. simpl in Hfuel |- *.
    assert (n = n0) as -> by congruence.
    apply chain_le in Hchain as Hle.
    destruct (Z.ltb_spec a heapend); [| lia].
    apply Forall_cons in Hok as [[Hb Hf] Hok].
    apply runs_bind.
    eapply runs_weaken; [apply (check_node_passes mem in_irq prev a n0); auto |].
    intros o evs [-> ->]. simpl.
    destruct Hb as (n' & x & Ha' & Hx & Hsz).
    assert (n' = n0) as -> by congruence.
    runs_go. simpl.
    apply IH; auto; [right; exists n0, x; auto | lia |].
    rewrite last_cons_default in Hbody. exact Hbody.
Qed.

(** The last node of a sound stretch ends where the stretch ends and
    agrees with the node found there. *)
Lemma chain_last_step mem b a l prev p :
  chain mem b a (l ++ [prev]) ->
  node_at mem prev = Some p ->
  prev + size p = b.
Proof.
  intros Hchain Hp. remember (l ++ [prev]) as l' eqn:El.
  revert l El. induction Hchain as [| a n0 l' Ha Hpos Hchain IH]; intros l El.
  - destruct l; discriminate.
  - destruct l as [| a1 l]; simpl in El.
    + injection El as Ea El. subst a l'. inversion Hchain; subst. congruence.
    + injection El as Ea El. subst a l'. eapply IH; reflexivity.
Qed.

Lemma chain_last_agrees mem b a l prev p n :
  l <> [] ->
  chain mem b a l ->
  Forall (fun a => boundary_ok mem a /\ freelist_ok mem a) l ->
  List.last l NULL = prev ->
  node_at mem prev = Some p ->
  node_at mem b = Some n ->
  size p = prev_size n.
Proof.
  intros Hne Hchain Hok Hlast Hp Hn.
  destruct (exists_last Hne) as (l0 & a0 & ->).
  rewrite last_last in Hlast. subst a0.
  apply Forall_app in Hok as [_ Hok].
  apply Forall_cons in Hok as [[(n' & x' & Hn' & Hx' & Hsz) _] _].
  assert (n' = p) as -> by congruence.
  rewrite (chain_last_step mem b a l0 prev p Hchain Hp) in Hx'.
  unfold prev_size. congruence.
Qed.

(** The same for a whole region's turn: after the sound stretch [l],
    the turn ends with what the loop body does at [b]. *)
Lemma visit_region_reaches mem (in_irq : bool) heap region l fuel b nb
    (o : outcome (option Z)) (report : list event) :
  l <> [] ->
  chain mem b (mm_heapstart heap region) l ->
  Forall (fun a => boundary_ok mem a /\ freelist_ok mem a) l ->
  b < mm_heapend heap region ->
  node_at mem b = Some nb ->
  (length l < fuel)%nat ->
  o = Done (Some (-1)) ->
  runs mem (check_node in_irq (List.last l NULL) b (b + size nb))
    (fun o' evs => o' = o /\ evs = report) ->
  runs mem (visit_region fuel in_irq heap region)
    (fun o' evs => o' = o /\ evs = take_evs in_irq ++ report).
Proof.
  intros Hne Hchain Hok Hlt Hnb Hfuel Ho Hbody.
  assert (exists n0, node_at mem (mm_heapstart heap region) = Some n0) as [n0 Hn0].
  { inversion Hchain; subst; [congruence | eauto]. }
  unfold visit_region.
  assert (Hwalk : runs mem
            (walk_region fuel in_irq (mm_heapend heap region) NULL
               (mm_heapstart heap region) (mm_heapstart heap region + size n0))
            (fun o' evs => o' = o /\ evs = report)).
  { eapply walk_region_reaches; eauto; [left; reflexivity |].
    eapply runs_weaken; [exact Hbody |].
    intros o' evs [-> ->]. subst o. split; [discriminate | auto]. }
  subst o. destruct in_irq; runs_go.
  all: eapply runs_weaken; [exact Hwalk |].
  all: intros o evs [-> ->]; runs_go; simpl; rewrite app_nil_r; auto.
Qed.

(** The first pair of adjacent nodes that disagrees, when the earlier
    one is not the first node of the region: reported with the node
    before it as the first candidate and with the pair itself as the
    second, and answered with -1 at once. *)
Lemma first_mismatch_reported mem (in_irq : bool) heap region l fuel prev p b n x :
  l <> [] ->
  chain mem b (mm_heapstart heap region) l ->
  Forall (fun a => boundary_ok mem a /\ freelist_ok mem a) l ->
  b < mm_heapend heap region ->
  List.last l NULL = prev ->
  node_at mem prev = Some p ->
  node_at mem b = Some n ->
  node_at mem (b + size n) = Some x ->
  size n <> prev_size x ->
  (length l < fuel)%nat ->
  runs mem (visit_region fuel in_irq heap region)
    (fun o evs => o = Done (Some (-1))
       /\ evs = take_evs in_irq
                ++ (EvDbg <$> forward_report prev p b n (b + size n) x)
                ++ give_evs in_irq).
Proof.
  intros Hne Hchain Hok Hlt Hlast Hp Hn Hx Hbad Hfuel.
  eapply visit_region_reaches; eauto. rewrite Hlast.
  eapply forward_mismatch_reported; eauto.
  eapply chain_last_agrees; eauto.
Qed.

(** The first free node with an unanswered [blink], when it is not the
    first node of the region: reported with that pointer and what it
    leads to, and answered with -1 at once. *)
Lemma first_blink_mismatch_reported mem (in_irq : bool) heap region l fuel
    prev p a n x b :
  l <> [] ->
  chain mem a (mm_heapstart heap region) l ->
  Forall (fun a => boundary_ok mem a /\ freelist_ok mem a) l ->
  a < mm_heapend heap region ->
  List.last l NULL = prev ->
  node_at mem prev = Some p ->
  node_at mem a = Some n ->
  node_at mem (a + size n) = Some x ->
  size n = prev_size x ->
  kind n = "F"%char ->
  node_at mem (blink n) = Some b ->
  flink b <> a ->
  (length l < fuel)%nat ->
  runs mem (visit_region fuel in_irq heap region)
    (fun o evs => o = Done (Some (-1))
       /\ evs = take_evs in_irq
                ++ (EvDbg <$> blink_report prev p a n b)
                ++ give_evs in_irq).
Proof.
  intros Hne Hchain Hok Hlt Hlast Hp Hn Hx Hsz Hfree Hb Hbad Hfuel.
  eapply visit_region_reaches; eauto. rewrite Hlast.
  eapply blink_mismatch_reported; eauto.
  eapply chain_last_agrees; eauto.
Qed.

(** And the same for an unanswered [flink] behind a sound [blink]. *)
Lemma first_flink_mismatch_reported mem (in_irq : bool) heap region l fuel
    prev p a n x f :
  l <> [] ->
  chain mem a (mm_heapstart heap region) l ->
  Forall (fun a => boundary_ok mem a /\ freelist_ok mem a) l ->
  a < mm_heapend heap region ->
  List.last l NULL = prev ->
  node_at mem prev = Some p ->
  node_at mem a = Some n ->
  node_at mem (a + size n) = Some x ->
  size n = prev_size x ->
  kind n = "F"%char ->
  link_ok mem a (blink n) flink ->
  node_at mem (flink n) = Some f ->
  blink f <> a ->
  (length l < fuel)%nat ->
  runs mem (visit_region fuel in_irq heap region)
    (fun o evs => o = Done (Some (-1))
       /\ evs = take_evs in_irq
                ++ (EvDbg <$> flink_report prev p a n f)
                ++ give_evs in_irq).
Proof.
  intros Hne Hchain Hok Hlt Hlast Hp Hn Hx Hsz Hfree Hbl Hf Hbad Hfuel.
  eapply visit_region_reaches; eauto. rewrite Hlast.
  eapply flink_mismatch_reported; eauto.
  eapply chain_last_agrees; eauto.
Qed.

(** ** The first test never fires on memory that stands still

    A disagreement between [prev] and [node] was met one turn earlier
    as a disagreement between [node] and [next]; the walk therefore
    arrives at each node with a [prev] that agrees with it. *)

Lemma check_node_forward mem in_irq prev a next :
  prev_ok mem prev a ->
  runs mem (check_node in_irq prev a next)
    (fun o evs => (BoundaryBackward ∉ reported evs)
                  /\ (o = Done None -> prev_ok mem a next)).
Proof.
  intros Hprev. unfold check_node.
  destruct Hprev as [-> | (p & n & Hp & Hn & Hsz)];
    runs_go; tests_clash; simpl;
    (split; [destruct in_irq; simpl; rewrite ?elem_of_cons, ?elem_of_nil;
             intuition discriminate |]);
    intros Hnone; try discriminate Hnone;
    right; do 2 eexists; repeat split; eauto.
Qed.

Lemma walk_region_forward mem in_irq heapend fuel :
  forall prev a next,
    prev_ok mem prev a ->
    runs mem (walk_region fuel in_irq heapend prev a next)
      (fun _ evs => BoundaryBackward ∉ reported evs).
Proof.
  induction fuel as [| fuel IH]; intros prev a next Hprev; simpl.
  - apply runs_spin. apply not_elem_of_nil.
  - destruct (a <? heapend); [| apply runs_ret, not_elem_of_nil].
    apply runs_bind.
    eapply runs_weaken; [apply check_node_forward, Hprev |].
    intros [[c |] | p |] e1 [Hnot Hnext]; simpl; try exact Hnot.
    + apply runs_ret. rewrite app_nil_r. exact Hnot.
    + specialize (Hnext eq_refl).
      runs_go; [| rewrite app_nil_r; exact Hnot].
      eapply runs_weaken; [apply IH, Hnext |].
      intros o e2 Hnot2. cbv beta in Hnot2 |- *.
      rewrite !reported_app, !elem_of_app. simpl. rewrite elem_of_nil. tauto.
Qed.

Lemma visit_region_forward mem in_irq fuel heap region :
  runs mem (visit_region fuel in_irq heap region)
    (fun _ evs => BoundaryBackward ∉ reported evs).
Proof.
  unfold visit_region.
  destruct in_irq; runs_go; simpl; try apply not_elem_of_nil.
  all: eapply runs_weaken; [apply walk_region_forward; left; reflexivity |].
  all: intros [[c |] | p |] evs Hnot; simpl; runs_go; simpl;
    rewrite ?reported_app, ?app_nil_r; simpl; rewrite ?app_nil_r; exact Hnot.
Qed.

Lemma visit_regions_forward mem in_irq fuel heap todo :
  forall region,
    runs mem (visit_regions fuel in_irq heap region todo)
      (fun _ evs => BoundaryBackward ∉ reported evs).
Proof.
  induction todo as [| todo IH]; intros region; simpl.
  - apply runs_ret, not_elem_of_nil.
  - apply runs_bind.
    eapply runs_weaken; [apply visit_region_forward |].
    intros [[c |] | p |] e1 Hnot; simpl; try exact Hnot.
    + apply runs_ret. rewrite app_nil_r. exact Hnot.
    + eapply runs_weaken; [apply IH |].
      intros o e2 Hnot2. cbv beta in Hnot2 |- *.
      rewrite reported_app, elem_of_app. tauto.
Qed.

(** X7. No call reports a violation of the first kind: what the first test
    looks for is always found by the second test, one node earlier. *)
Lemma backward_never_reported fuel in_irq heap mem :
  BoundaryBackward ∉ (verdict fuel in_irq heap mem).2.
Proof.
  unfold verdict, mm_check_heap_corruption.
  destruct (visit_regions_forward mem in_irq fuel heap (mm_nregions heap) 0%nat [])
    as (o & evs & Hrun & Hnot).
  rewrite Hrun. exact Hnot.
Qed.

(** ** Memory and semaphore *)

(** The checker is read-only: whatever the outcome, the memory is the
    one it started on and the trace has only grown. *)
Lemma check_keeps_memory fuel in_irq heap s :
  st_mem (mm_check_heap_corruption fuel in_irq heap s).2 = st_mem s
  /\ exists evs,
      st_trace (mm_check_heap_corruption fuel in_irq heap s).2 = st_trace s ++ evs.
Proof.
  destruct s as [mem t].
  destruct (visit_regions_post mem fuel in_irq heap 0%nat (mm_nregions heap) t)
    as (o & evs & Hrun & _).
  unfold mm_check_heap_corruption. rewrite Hrun. simpl. eauto.
Qed.

(** X22. In interrupt context a call performs no semaphore operation
    at all. In task context a call that returns 0 has taken and given
    the semaphore in turn once for every region and has done nothing
    else; a call that returns otherwise returns -1 and has taken and
    given it in turn once for each region up to and including the one
    it stopped in, at least once; in both cases lines are printed only
    while the semaphore is held and it is free at the end. A call that
    does not return stopped inside a region's walk, after the take of
    that region and before its give. *)
Theorem semaphore_discipline mem heap fuel in_irq t :
  exists evs,
    (mm_check_heap_corruption fuel in_irq heap (mk_state mem t)).2
      = mk_state mem (t ++ evs)
    /\ if in_irq then sem_of evs = []
       else match (mm_check_heap_corruption fuel in_irq heap (mk_state mem t)).1 with
            | Done c =>
                ((c = 0 /\ evs = concat (replicate (mm_nregions heap) [EvTake; EvGive]))
                 \/ (c = -1
                     /\ exists k, (k < mm_nregions heap)%nat
                          /\ sem_of evs = concat (replicate (S k) [EvTake; EvGive])))
                /\ lock_run false evs = Some false
            | Fault _ | Spin =>
                (exists k, (k < mm_nregions heap)%nat
                   /\ sem_of evs = concat (replicate k [EvTake; EvGive]) ++ [EvTake])
                /\ lock_run false evs = Some true
            end.
Proof.
  destruct (visit_regions_post mem fuel in_irq heap 0%nat (mm_nregions heap) t)
    as (o & evs & Hrun & Hpost).
  unfold mm_check_heap_corruption. rewrite Hrun. exists evs.
  split; [reflexivity |]. simpl.
  destruct in_irq.
  - destruct o as [c | p |]; simpl in Hpost.
    + destruct Hpost as [[[_ ->] | (_ & _ & k & _ & Hsem)] _].
      * rewrite turns_irq. reflexivity.
      * rewrite Hsem. apply turns_irq.
    + destruct Hpost as [(k & _ & Hsem) _]. rewrite Hsem, turns_irq. reflexivity.
    + destruct Hpost as [(k & _ & Hsem) _]. rewrite Hsem, turns_irq. reflexivity.
  - destruct o as [c | p |]; simpl in Hpost.
    + destruct Hpost as [[[-> ->] | (-> & _ & k & Hk & Hsem)] Hlock].
      * split; [| auto]. left. auto.
      * split; [| auto]. right. split; [reflexivity |]. exists k. auto.
    + destruct Hpost as [(k & Hk & Hsem) Hlock]. split; [eauto | auto].
    + destruct Hpost as [(k & Hk & Hsem) Hlock]. split; [eauto | auto].
Qed.

(** ** Return codes *)

(** C1, as amended. A call that returns gives 0 and reports nothing, or
    gives -1 and reports one violation; the code is -1 for each of the
    four kinds, which only the report tells apart. *)
Theorem failure_code_uniform fuel in_irq heap mem c vs :
  verdict fuel in_irq heap mem = (Done c, vs) ->
  (c = 0 /\ vs = []) \/ (c = -1 /\ exists v, vs = [v]).
Proof.
  unfold verdict, mm_check_heap_corruption.
  destruct (visit_regions_post mem fuel in_irq heap 0%nat (mm_nregions heap) [])
    as (o & evs & Hrun & Hpost).
  rewrite Hrun. simpl. intros [= -> <-]. simpl in Hpost.
  destruct Hpost as [[[-> ->] | (-> & Hv & _)] _].
  - left. split; [reflexivity | apply reported_turns].
  - right. split; [reflexivity | exact Hv].
Qed.

(** ** Reading [runs] as an equation *)

Lemma runs_exact mem {A} (m : M A) o evs t :
  runs mem m (fun o' evs' => o' = o /\ evs' = evs) ->
  m (mk_state mem t) = (o, mk_state mem (t ++ evs)).
Proof. intros Hm. destruct (Hm t) as (o' & evs' & Hrun & -> & ->). exact Hrun. Qed.


(** ** A call that returns 0 has seen a sound heap *)






(** ** The first violation in walk order decides the call *)

Lemma visit_regions_reaches mem in_irq heap fuel (o : outcome (option Z)) report :
  o <> Done None ->
  forall k region todo,
    (k < todo)%nat ->
    (forall r, (region <= r < region + k)%nat ->
       exists l, l <> []
         /\ chain mem (mm_heapend heap r) (mm_heapstart heap r) l
         /\ Forall (fun a => boundary_ok mem a /\ freelist_ok mem a) l
         /\ (length l < fuel)%nat) ->
    runs mem (visit_region fuel in_irq heap (region + k))
      (fun o' evs => o' = o /\ evs = report) ->
    runs mem (visit_regions fuel in_irq heap region todo)
      (fun o' evs => o' = call_exit o /\ evs = turns in_irq k ++ report).
Proof.
  intros Ho. induction k as [| k IH]; intros region todo Hk Hsound Hbad.
  - destruct todo as [| todo]; [lia |]. simpl.
    rewrite Nat.add_0_r in Hbad.
    apply runs_bind. eapply runs_weaken; [exact Hbad |].
    intros o' evs [-> ->]. destruct o as [[c |] | p |]; simpl; try congruence.
    + apply runs_ret. rewrite app_nil_r. auto.
    + auto.
    + auto.
  - destruct todo as [| todo]; [lia |]. simpl.
    destruct (Hsound region ltac:(lia)) as (l & Hne & Hchain & Hok & Hfuel).
    apply runs_bind.
    eapply runs_weaken; [eapply visit_region_passes; eauto |].
    intros o' evs [-> ->].
    eapply runs_weaken.
    + apply (IH (S region) todo); [lia | intros r Hr; apply Hsound; lia |].
      replace (S region + k)%nat with (region + S k)%nat by lia. exact Hbad.
    + intros o' evs [-> ->]. split; [reflexivity |].
      rewrite turns_S, <- !app_assoc. reflexivity.
Qed.

Lemma regions_ok_bound mem heap count :
  (forall r, (r < count)%nat ->
     region_ok mem (mm_heapstart heap r) (mm_heapend heap r)) ->
  exists bound, forall r, (r < count)%nat ->
    exists l, l <> []
      /\ chain mem (mm_heapend heap r) (mm_heapstart heap r) l
      /\ Forall (fun a => boundary_ok mem a /\ freelist_ok mem a) l
      /\ (length l < bound)%nat.
Proof.
  induction count as [| count IH]; intros Hok.
  - exists 0%nat. intros r Hr. lia.
  - destruct IH as [bound Hbound]; [intros r Hr; apply Hok; lia |].
    destruct (Hok count ltac:(lia)) as (l & Hne & Hchain & Hall).
    exists (bound `max` S (length l))%nat. intros r Hr.
    destruct (decide (r = count)) as [-> | Hneq].
    + exists l. repeat split; auto. lia.
    + destruct (Hbound r ltac:(lia)) as (l' & ? & ? & ? & ?).
      exists l'. repeat split; auto. lia.
Qed.

(** Once the walk gets as far as [b] in region [r], the call ends as
    the loop body ends at [b], after [r] complete turns and with the
    semaphore taken once more. *)
Lemma check_reaches mem (in_irq : bool) heap r l b nb
    (o : outcome (option Z)) report :
  reaches_node mem heap r l b ->
  node_at mem b = Some nb ->
  o <> Done None ->
  runs mem (check_node in_irq (List.last l NULL) b (b + size nb))
    (fun o' evs => o' = o /\ evs = report) ->
  exists bound, forall fuel t, (bound <= fuel)%nat ->
    mm_check_heap_corruption fuel in_irq heap (mk_state mem t)
    = (call_exit o,
       mk_state mem (t ++ turns in_irq r ++ take_evs in_irq ++ report)).
Proof.
  intros (Hr & Hbefore & Hchain & Hok & Hlt) Hnb Ho Hbody.
  destruct (regions_ok_bound mem heap r Hbefore) as [bound Hbound].
  exists (bound `max` S (length l))%nat. intros fuel t Hfuel.
  apply runs_exact. unfold mm_check_heap_corruption.
  eapply (visit_regions_reaches mem in_irq heap fuel o (take_evs in_irq ++ report) Ho r 0%nat);
    [exact Hr | |].
  - intros r' Hr'. destruct (Hbound r' ltac:(lia)) as (l' & ? & ? & ? & ?).
    exists l'. repeat split; auto. lia.
  - simpl.
    assert (exists n0, node_at mem (mm_heapstart heap r) = Some n0) as [n0 Hn0].
    { inversion Hchain; subst; eauto. }
    unfold visit_region.
    assert (Hwalk : runs mem
              (walk_region fuel in_irq (mm_heapend heap r) NULL
                 (mm_heapstart heap r) (mm_heapstart heap r + size n0))
              (fun o' evs => o' = o /\ evs = report)).
    { eapply walk_region_reaches; eauto; [left; reflexivity | lia |].
      eapply runs_weaken; [exact Hbody |].
      intros o' evs [-> ->]. auto. }
    destruct in_irq; runs_go.
    all: eapply runs_weaken; [exact Hwalk |].
    all: intros o' evs [-> ->]; destruct o as [[c |] | p |]; simpl;
      try congruence; runs_go; simpl; rewrite ?app_nil_r; auto.
Qed.

(** X2. A disagreement between a node and its successor, met first in walk
    order at a node [b] that has a predecessor [prev] in its region:
    the call prints the two candidate pairs, [(prev, b)] and
    [(b, next)], gives the semaphore back and returns -1; no later node
    or region is looked at. *)
Theorem forward_violation_reported mem (in_irq : bool) heap r l prev p b n x :
  reaches_node mem heap r l b ->
  l <> [] ->
  List.last l NULL = prev ->
  node_at mem prev = Some p ->
  node_at mem b = Some n ->
  node_at mem (b + size n) = Some x ->
  size n <> prev_size x ->
  exists bound, forall fuel t, (bound <= fuel)%nat ->
    mm_check_heap_corruption fuel in_irq heap (mk_state mem t)
    = (Done (-1),
       mk_state mem
         (t ++ turns in_irq r ++ take_evs in_irq
            ++ (EvDbg <$> forward_report prev p b n (b + size n) x)
            ++ give_evs in_irq)).
Proof.
  intros Hreach Hne Hlast Hp Hn Hx Hbad.
  apply (check_reaches mem in_irq heap r l b n (Done (Some (-1))));
    [exact Hreach | exact Hn | discriminate |].
  rewrite Hlast. eapply forward_mismatch_reported; eauto.
  destruct Hreach as (_ & _ & Hchain & Hok & _).
  eapply chain_last_agrees; eauto.
Qed.

(** X3. The same disagreement at the first node of a region: the call
    prints the heading of the report and then reads through [prev],
    which is [NULL]; it returns nothing and, in task context, keeps
    the semaphore. *)
Theorem first_node_violation_always_faults mem (in_irq : bool) heap r n x :
  (r < mm_nregions heap)%nat ->
  (forall r', (r' < r)%nat ->
     region_ok mem (mm_heapstart heap r') (mm_heapend heap r')) ->
  mm_heapstart heap r < mm_heapend heap r ->
  node_at mem (mm_heapstart heap r) = Some n ->
  node_at mem (mm_heapstart heap r + size n) = Some x ->
  size n <> prev_size x ->
  exists bound, forall fuel t, (bound <= fuel)%nat ->
    mm_check_heap_corruption fuel in_irq heap (mk_state mem t)
    = (Fault NULL,
       mk_state mem
         (t ++ turns in_irq r ++ take_evs in_irq
            ++ (EvDbg <$> [LineHashes; LineErrNodeDot; LineEquals;
                           LineScenario 1; LineEquals]))).
Proof.
  intros Hr Hbefore Hlt Hn Hx Hbad.
  apply (check_reaches mem in_irq heap r [] (mm_heapstart heap r) n (Fault NULL));
    [| exact Hn | discriminate |].
  - repeat split; auto. apply chain_end.
  - simpl. eapply forward_mismatch_first_faults; eauto.
Qed.

(** X4. A free node whose [blink] leads to a node that does not point
    back, met first in walk order at a node that has a predecessor:
    the call prints the node, the pointer and what it leads to, gives
    the semaphore back and returns -1. *)
Theorem blink_violation_reported mem (in_irq : bool) heap r l prev p a n x b :
  reaches_node mem heap r l a ->
  l <> [] ->
  List.last l NULL = prev ->
  node_at mem prev = Some p ->
  node_at mem a = Some n ->
  node_at mem (a + size n) = Some x ->
  size n = prev_size x ->
  kind n = "F"%char ->
  node_at mem (blink n) = Some b ->
  flink b <> a ->
  exists bound, forall fuel t, (bound <= fuel)%nat ->
    mm_check_heap_corruption fuel in_irq heap (mk_state mem t)
    = (Done (-1),
       mk_state mem
         (t ++ turns in_irq r ++ take_evs in_irq
            ++ (EvDbg <$> blink_report prev p a n b) ++ give_evs in_irq)).
Proof.
  intros Hreach Hne Hlast Hp Hn Hx Hsz Hfree Hb Hbad.
  apply (check_reaches mem in_irq heap r l a n (Done (Some (-1))));
    [exact Hreach | exact Hn | discriminate |].
  rewrite Hlast. eapply blink_mismatch_reported; eauto.
  destruct Hreach as (_ & _ & Hchain & Hok & _).
  eapply chain_last_agrees; eauto.
Qed.

(** X5. The same for a [flink] that is not answered, behind a [blink] that
    is null or answered. *)
Theorem flink_violation_reported mem (in_irq : bool) heap r l prev p a n x f :
  reaches_node mem heap r l a ->
  l <> [] ->
  List.last l NULL = prev ->
  node_at mem prev = Some p ->
  node_at mem a = Some n ->
  node_at mem (a + size n) = Some x ->
  size n = prev_size x ->
  kind n = "F"%char ->
  link_ok mem a (blink n) flink ->
  node_at mem (flink n) = Some f ->
  blink f <> a ->
  exists bound, forall fuel t, (bound <= fuel)%nat ->
    mm_check_heap_corruption fuel in_irq heap (mk_state mem t)
    = (Done (-1),
       mk_state mem
         (t ++ turns in_irq r ++ take_evs in_irq
            ++ (EvDbg <$> flink_report prev p a n f) ++ give_evs in_irq)).
Proof.
  intros Hreach Hne Hlast Hp Hn Hx Hsz Hfree Hbl Hf Hbad.
  apply (check_reaches mem in_irq heap r l a n (Done (Some (-1))));
    [exact Hreach | exact Hn | discriminate |].
  rewrite Hlast. eapply flink_mismatch_reported; eauto.
  destruct Hreach as (_ & _ & Hchain & Hok & _).
  eapply chain_last_agrees; eauto.
Qed.

(** X6. An unanswered [blink] on the first node of a region, marked free:
    the call breaks off inside the report, at [dump_node(prev, ...)]
    with [prev] still [NULL]. *)
Theorem first_node_link_violation_faults mem (in_irq : bool) heap r n x b :
  (r < mm_nregions heap)%nat ->
  (forall r', (r' < r)%nat ->
     region_ok mem (mm_heapstart heap r') (mm_heapend heap r')) ->
  mm_heapstart heap r < mm_heapend heap r ->
  node_at mem (mm_heapstart heap r) = Some n ->
  node_at mem (mm_heapstart heap r + size n) = Some x ->
  size n = prev_size x ->
  kind n = "F"%char ->
  node_at mem (blink n) = Some b ->
  flink b <> mm_heapstart heap r ->
  exists bound, forall fuel t, (bound <= fuel)%nat ->
    mm_check_heap_corruption fuel in_irq heap (mk_state mem t)
    = (Fault NULL,
       mk_state mem
         (t ++ turns in_irq r ++ take_evs in_irq
            ++ (EvDbg <$> [LineHashes; LineErrFreeList]))).
Proof.
  intros Hr Hbefore Hlt Hn Hx Hsz Hfree Hb Hbad.
  apply (check_reaches mem in_irq heap r [] (mm_heapstart heap r) n (Fault NULL));
    [| exact Hn | discriminate |].
  - repeat split; auto. apply chain_end.
  - simpl. eapply blink_mismatch_first_faults; eauto.
Qed.

End CheckerFacts.


(** ** The example heaps *)

Lemma sound_mem_chain : @chain sound_mem 0x1040 0x1000 [0x1000; 0x1010; 0x1030].
Proof.
  eapply chain_step; [reflexivity | reflexivity |].
  eapply chain_step; [reflexivity | reflexivity |].
  eapply chain_step; [reflexivity | reflexivity |].
  apply chain_end.
Defined.

Lemma sound_mem_ok : @heap_ok mm32 sound_mem one_region.
Proof.
  intros r _. exists [0x1000; 0x1010; 0x1030].
  split; [discriminate |]. split.
  - exact sound_mem_chain.
  - repeat apply List.Forall_cons; try apply List.Forall_nil.
    all: split;
      [ do 2 eexists; split; [reflexivity |]; split; reflexivity
      | intros n Hn Hfree; vm_compute in Hn; inversion Hn; subst n;
        try discriminate Hfree ].
    split; [right | left; reflexivity].
    eexists; split; reflexivity.
Defined.

Lemma sound_heap_passes_witness :
  exists bound, forall fuel t, (bound <= fuel)%nat ->
    @mm_check_heap_corruption mm32 fuel false one_region (mk_state sound_mem t)
      = (Done 0, mk_state sound_mem (t ++ [EvTake; EvGive]))
    /\ forall n,
        @repeat_check mm32 n fuel false one_region (mk_state sound_mem t)
        = (Done (replicate n 0),
           mk_state sound_mem
             (t ++ concat (replicate n [EvTake; EvGive]))).
Proof.
  exact (@sound_heap_passes mm32 sound_mem one_region false sound_mem_ok).
Defined.


Lemma region_walk_termination_witness :
  (@visit_region mm32 4 false one_region 0 (mk_state sound_mem [])).1 <> Spin
  /\ forall fuel,
      (@visit_region mm32 fuel false one_region 0 (mk_state stuck_mem [])).1 = Spin.
Proof.
  split.
  - apply (proj1 (@region_walk_termination mm32 sound_mem one_region 0%nat false)
             [0x1000; 0x1010; 0x1030] 4%nat []).
    + exact sound_mem_chain.
    + simpl. lia.
  - intros fuel.
    apply (proj2 (@region_walk_termination mm32 stuck_mem one_region 0%nat false)
             (mk_node 0 0x80000000 7 9) fuel []).
    + reflexivity.
    + split; [reflexivity |]. split; [reflexivity | discriminate].
    + reflexivity.
Defined.


(** C1, as stated, fails: a boundary violation and a free-list
    violation are both answered with -1. *)
Lemma codes_do_not_tell_kinds : ~ @codes_tell_kinds mm32.
Proof.
  intros Htell.
  apply (Htell 10%nat false one_region boundary_mem
               10%nat false one_region freelist_mem
               (-1) (-1) BoundaryForward FreeListBackward).
  - vm_compute. reflexivity.
  - vm_compute. reflexivity.
  - discriminate.
  - reflexivity.
Qed.

Lemma failure_code_uniform_witness :
  (-1 = 0 /\ [FreeListBackward] = [])
  \/ (-1 = -1 /\ exists v, [FreeListBackward] = [v]).
Proof.
  apply (@failure_code_uniform mm32 10%nat false one_region freelist_mem).
  vm_compute. reflexivity.
Defined.

(** The run on a heap whose first node disagrees with its successor. *)
Lemma first_pair_run fuel in_irq :
  @mm_check_heap_corruption mm32 (S fuel) in_irq one_region
    (mk_state first_pair_mem [])
  = (Fault NULL,
     mk_state first_pair_mem
       (take_evs in_irq
        ++ (EvDbg <$> [LineHashes; LineErrNodeDot; LineEquals;
                       LineScenario 1; LineEquals]))).
Proof. destruct in_irq; reflexivity. Qed.

(** C2, at a heap whose first node disagrees with its successor: the
    memory is untouched, but the call does not return a code; it
    dereferences [prev], which is still [NULL], inside [dump_node], and
    in task context it does so with the semaphore taken and not given
    back. *)
Theorem first_node_violation_faults fuel in_irq :
  let r := @mm_check_heap_corruption mm32 (S fuel) in_irq one_region
             (mk_state first_pair_mem []) in
  r.1 = Fault NULL
  /\ st_mem r.2 = first_pair_mem
  /\ sem_of (st_trace r.2) = take_evs in_irq.
Proof.
  rewrite first_pair_run. simpl. repeat split.
  destruct in_irq; reflexivity.
Qed.

(** C4, at the same heap: the first adjacent pair, [0x1000] and
    [0x1010], disagrees, and the call neither returns -1 nor prints a
    line about either node. *)
Theorem first_pair_mismatch_unreported fuel in_irq :
  let r := @mm_check_heap_corruption mm32 (S fuel) in_irq one_region
             (mk_state first_pair_mem []) in
  r.1 = Fault NULL
  /\ forall sz v c,
       (EvDbg (LineOverflowed 0x1000 sz c) ∉ st_trace r.2)
       /\ (EvDbg (LineCorrupted 0x1010 sz v) ∉ st_trace r.2).
Proof.
  rewrite first_pair_run. simpl. split; [reflexivity |].
  intros sz v c. destruct in_irq; simpl; rewrite !elem_of_cons, !elem_of_nil;
    split; intros Hin; intuition discriminate.
Qed.

(** C5, at a heap whose first node is free with a [blink] that is not
    answered: the call neither returns -1 nor gets to print the node or
    the mismatched pointer; it stops at [dump_node(prev, ...)] with
    [prev] still [NULL]. *)
Theorem first_node_free_mismatch_faults fuel in_irq :
  @mm_check_heap_corruption mm32 (S fuel) in_irq one_region
    (mk_state head_free_mem [])
  = (Fault NULL,
     mk_state head_free_mem
       (take_evs in_irq ++ (EvDbg <$> [LineHashes; LineErrFreeList]))).
Proof. destruct in_irq; reflexivity. Qed.



(** C6, at the two heaps of C2 and C5, in task context: the call takes
    the semaphore, enters a failure branch and stops at
    [dump_node(prev, ...)] with [prev] still [NULL], before the
    [mm_givesemaphore] of that branch; the semaphore is taken once,
    never given, and held at the end. *)
Theorem semaphore_kept_at_first_node fuel :
  let r := @mm_check_heap_corruption mm32 (S fuel) false one_region
             (mk_state first_pair_mem []) in
  let r' := @mm_check_heap_corruption mm32 (S fuel) false one_region
              (mk_state head_free_mem []) in
  (r.1 = Fault NULL
   /\ sem_of (st_trace r.2) = [EvTake]
   /\ (EvGive ∉ st_trace r.2)
   /\ lock_run false (st_trace r.2) = Some true)
  /\ (r'.1 = Fault NULL
      /\ sem_of (st_trace r'.2) = [EvTake]
      /\ (EvGive ∉ st_trace r'.2)
      /\ lock_run false (st_trace r'.2) = Some true).
Proof.
  rewrite first_pair_run.
  assert (Hrun : @mm_check_heap_corruption mm32 (S fuel) false one_region
                   (mk_state head_free_mem [])
                 = (Fault NULL,
                    mk_state head_free_mem
                      ([EvTake] ++ (EvDbg <$> [LineHashes; LineErrFreeList]))))
    by reflexivity.
  rewrite Hrun. simpl.
  repeat split; try reflexivity.
  all: rewrite !elem_of_cons, elem_of_nil; intuition discriminate.
Qed.

(** ** The walk order on the example heaps *)

(** Where the head node [0x1000] is as in the sound heap and the node
    at [0x1010] records its size, the walk gets as far as [0x1010]. *)
Lemma head_reaches mem x :
  node_at mem 0x1000 = Some (mk_node 16 0x80000000 7 9) ->
  node_at mem 0x1010 = Some x ->
  Z.land (preceding x) (Z.lnot 0x80000000) = 16 ->
  @reaches_node mm32 mem one_region 0%nat [0x1000] 0x1010.
Proof.
  intros Hhead Hx Hsz. unfold reaches_node.
  split; [simpl; lia |]. split; [intros r' Hr'; lia |].
  split; [eapply chain_step; [exact Hhead | reflexivity | apply chain_end] |].
  split; [| reflexivity].
  apply List.Forall_cons; [| apply List.Forall_nil]. split.
  - exists (mk_node 16 0x80000000 7 9), x.
    split; [exact Hhead |]. split; [exact Hx |]. symmetry. exact Hsz.
  - intros n Hn Hfree. rewrite Hhead in Hn. inversion Hn; subst n.
    discriminate Hfree.
Defined.



Lemma forward_violation_reported_witness :
  exists bound, forall fuel t, (bound <= fuel)%nat ->
    @mm_check_heap_corruption mm32 fuel false one_region (mk_state boundary_mem t)
    = (Done (-1),
       mk_state boundary_mem
         (t ++ [] ++ [EvTake]
            ++ (EvDbg <$> @forward_report mm32
                  0x1000 (mk_node 16 0x80000000 7 9)
                  0x1010 (mk_node 32 16 0 0x2000)
                  0x1030 (mk_node 16 0x80000030 0 0))
            ++ [EvGive])).
Proof.
  apply (@forward_violation_reported mm32 boundary_mem false one_region 0%nat
           [0x1000] 0x1000 (mk_node 16 0x80000000 7 9)
           0x1010 (mk_node 32 16 0 0x2000) (mk_node 16 0x80000030 0 0)).
  - apply (head_reaches _ (mk_node 32 16 0 0x2000)); reflexivity.
  - discriminate.
  - reflexivity.
  - reflexivity.
  - reflexivity.
  - reflexivity.
  - vm_compute. discriminate.
Defined.

Lemma first_node_violation_always_faults_witness :
  exists bound, forall fuel t, (bound <= fuel)%nat ->
    @mm_check_heap_corruption mm32 fuel false one_region (mk_state first_pair_mem t)
    = (Fault NULL,
       mk_state first_pair_mem
         (t ++ [] ++ [EvTake]
            ++ (EvDbg <$> [LineHashes; LineErrNodeDot; LineEquals;
                           LineScenario 1; LineEquals]))).
Proof.
  apply (@first_node_violation_always_faults mm32 first_pair_mem false one_region
           0%nat (mk_node 16 0x80000000 7 9) (mk_node 32 48 0 0x2000)).
  - simpl. lia.
  - intros r' Hr'. lia.
  - reflexivity.
  - reflexivity.
  - reflexivity.
  - vm_compute. discriminate.
Defined.

Lemma blink_violation_reported_witness :
  exists bound, forall fuel t, (bound <= fuel)%nat ->
    @mm_check_heap_corruption mm32 fuel false one_region (mk_state freelist_mem t)
    = (Done (-1),
       mk_state freelist_mem
         (t ++ [] ++ [EvTake]
            ++ (EvDbg <$> @blink_report mm32
                  0x1000 (mk_node 16 0x80000000 7 9)
                  0x1010 (mk_node 32 16 0 0x2000)
                  (mk_node 0 0 0x1030 0))
            ++ [EvGive])).
Proof.
  apply (@blink_violation_reported mm32 freelist_mem false one_region 0%nat
           [0x1000] 0x1000 (mk_node 16 0x80000000 7 9)
           0x1010 (mk_node 32 16 0 0x2000) (mk_node 16 0x80000020 0 0)
           (mk_node 0 0 0x1030 0)).
  - apply (head_reaches _ (mk_node 32 16 0 0x2000)); reflexivity.
  - discriminate.
  - reflexivity.
  - reflexivity.
  - reflexivity.
  - reflexivity.
  - reflexivity.
  - reflexivity.
  - reflexivity.
  - vm_compute. discriminate.
Defined.

Lemma flink_violation_reported_witness :
  exists bound, forall fuel t, (bound <= fuel)%nat ->
    @mm_check_heap_corruption mm32 fuel false one_region (mk_state flink_mem t)
    = (Done (-1),
       mk_state flink_mem
         (t ++ [] ++ [EvTake]
            ++ (EvDbg <$> @flink_report mm32
                  0x1000 (mk_node 16 0x80000000 7 9)
                  0x1010 (mk_node 32 16 0x1030 0x2000)
                  (mk_node 16 0x80000020 0 0))
            ++ [EvGive])).
Proof.
  apply (@flink_violation_reported mm32 flink_mem false one_region 0%nat
           [0x1000] 0x1000 (mk_node 16 0x80000000 7 9)
           0x1010 (mk_node 32 16 0x1030 0x2000) (mk_node 16 0x80000020 0 0)
           (mk_node 16 0x80000020 0 0)).
  - apply (head_reaches _ (mk_node 32 16 0x1030 0x2000)); reflexivity.
  - discriminate.
  - reflexivity.
  - reflexivity.
  - reflexivity.
  - reflexivity.
  - reflexivity.
  - reflexivity.
  - right. eexists. split; reflexivity.
  - reflexivity.
  - vm_compute. discriminate.
Defined.

Lemma first_node_link_violation_faults_witness :
  exists bound, forall fuel t, (bound <= fuel)%nat ->
    @mm_check_heap_corruption mm32 fuel false one_region (mk_state head_free_mem t)
    = (Fault NULL,
       mk_state head_free_mem
         (t ++ [] ++ [EvTake] ++ (EvDbg <$> [LineHashes; LineErrFreeList]))).
Proof.
  apply (@first_node_link_violation_faults mm32 head_free_mem false one_region
           0%nat (mk_node 16 0 0 0x2000) (mk_node 32 16 0 0x2000)
           (mk_node 0 0 0x1010 0)).
  - simpl. lia.
  - intros r' Hr'. lia.
  - reflexivity.
  - reflexivity.
  - reflexivity.
  - reflexivity.
  - reflexivity.
  - reflexivity.
  - vm_compute. discriminate.
Defined.

End MmFacts.

(** * Properties of select *)

Module SelectFacts.
Import Select SelectSpec.

Section ShimFacts.
Context `{PollFlags}.

Lemma count_loop_spec r w e fds n :
  count_loop fds r w e n
  = (n + length (List.filter (any_watched r w e) fds))%nat.
Proof.
  revert n. induction fds as [| d fds IH]; intros n; simpl; [lia |].
  rewrite IH. unfold any_watched.
  destruct (watched r d || watched w d || watched e d); simpl; lia.
Qed.

Lemma mark_middle (done rest : list pollfd) p d flag :
  mark (done ++ p :: rest) (length done) d flag
  = Some (done ++ mk_pollfd d (Z.lor (events p) flag) (revents p) :: rest).
Proof.
  unfold mark. rewrite list_lookup_middle by reflexivity. simpl.
  replace (length done) with (length done + 0)%nat at 1 by lia.
  rewrite insert_app_r. reflexivity.
Qed.

Lemma entries_cons r w e d fds :
  entries r w e (d :: fds)
  = if any_watched r w e d
    then mk_pollfd d (interest r w e d) 0 :: entries r w e fds
    else entries r w e fds.
Proof. unfold entries. simpl. destruct (any_watched r w e d); reflexivity. Qed.

Lemma length_entries r w e fds :
  length (entries r w e fds) = length (List.filter (any_watched r w e) fds).
Proof. unfold entries. apply length_fmap. Qed.

(** The loop of [_init_desc_list] fills the zeroed tail of the array
    with the entries of the descriptors it visits, never storing
    outside the array as long as the array has room for them. *)
Lemma init_loop_spec r w e fds :
  forall done k,
    (length (entries r w e fds) <= k)%nat ->
    init_loop fds r w e (done ++ replicate k zero_pollfd) (length done)
    = Some (done ++ entries r w e fds
                 ++ replicate (k - length (entries r w e fds)) zero_pollfd,
            (length done + length (entries r w e fds))%nat).
Proof.
  induction fds as [| d fds IH]; intros done k Hk.
  - simpl. rewrite Nat.sub_0_r, Nat.add_0_r. reflexivity.
  - rewrite entries_cons in Hk |- *. simpl init_loop.
    unfold mark_if, any_watched, interest in *.
    destruct (watched r d) eqn:Hr, (watched w d) eqn:Hw, (watched e d) eqn:He;
      simpl in Hk |- *.
    all: try (destruct k as [| k]; [lia |]; simpl replicate;
              rewrite ?mark_middle; simpl;
              rewrite ?mark_middle; simpl;
              rewrite ?mark_middle; simpl;
              rewrite (cons_middle _ done), app_assoc;
              replace (length done + 1)%nat with (length (done ++ [mk_pollfd d
                (interest r w e d) 0])) by (rewrite length_app; simpl; lia);
              unfold interest; rewrite Hr, Hw, He; simpl;
              rewrite IH by lia;
              rewrite <- app_assoc, length_app; simpl;
              do 2 f_equal; lia).
    rewrite Nat.add_0_r. apply IH. exact Hk.
Qed.

Lemma zalloc_or_null n :
  (if (0 <? n)%nat then kmm_zalloc n else []) = kmm_zalloc n.
Proof. destruct n; reflexivity. Qed.

Lemma init_desc_list_spec nfds r w e :
  _init_desc_list nfds r w e
    (kmm_zalloc (count_loop (seqZ 0 nfds) r w e 0))
  = Some (entries r w e (seqZ 0 nfds), count_loop (seqZ 0 nfds) r w e 0%nat).
Proof.
  unfold _init_desc_list, kmm_zalloc.
  rewrite count_loop_spec, <- length_entries.
  change (0 + ?n)%nat with n.
  etrans; [exact (init_loop_spec r w e (seqZ 0 nfds) [] _ (le_n _)) |].
  simpl. rewrite Nat.sub_diag, app_nil_r. reflexivity.
Qed.

(** What [select] comes to once the array is known to be filled as
    counted: the allocation fails, or [poll] is called. *)
Lemma select_unfold wld nfds r w e timeout :
  let npfds := count_loop (seqZ 0 nfds) r w e 0%nat in
  let pollset := entries r w e (seqZ 0 nfds) in
  let reply := poll wld pollset npfds (_set_timeout timeout) in
  let back :=
    if 0 <? p_ret reply
    then _back_desc_list npfds (_reset_fds r) (_reset_fds w) (_reset_fds e)
           (polled reply pollset)
    else (_reset_fds r, _reset_fds w, _reset_fds e, p_ret reply) in
  select wld nfds r w e timeout
  = if (0 <? npfds)%nat && negb (alloc_ok wld)
    then Some (mk_result ERROR r w e
                 [EvEnterCancel; EvAlloc npfds; EvSetErrno ENOMEM; EvLeaveCancel])
    else Some (mk_result back.2 back.1.1.1 back.1.1.2 back.1.2
                 ((EvEnterCancel :: (if (0 <? npfds)%nat then [EvAlloc npfds] else []))
                  ++ [EvPoll pollset npfds (_set_timeout timeout)]
                  ++ (if (0 <? npfds)%nat then [EvFree] else [])
                  ++ (if back.2 <? 0 then [EvSetErrno (Saved (p_errno reply))] else [])
                  ++ [EvLeaveCancel])).
Proof.
  intros npfds pollset reply back. unfold select.
  fold npfds. destruct ((0 <? npfds)%nat && negb (alloc_ok wld)); [reflexivity |].
  rewrite zalloc_or_null. unfold npfds at 2.
  rewrite init_desc_list_spec. simpl.
  fold npfds pollset. rewrite Nat.eqb_refl. simpl.
  fold reply. fold back. destruct back as [[[r' w'] e'] ret']. reflexivity.
Qed.

(** ** The timeout *)

Lemma wrap_int_range z : INT_MIN <= wrap_int z <= INT_MAX.
Proof.
  unfold wrap_int, INT_MIN, INT_MAX.
  pose proof (Z.mod_pos_bound (z + 2 ^ 31) (2 ^ 32) ltac:(lia)). lia.
Qed.

Lemma wrap_int_small z : INT_MIN <= z <= INT_MAX -> wrap_int z = z.
Proof.
  unfold wrap_int, INT_MIN, INT_MAX. intros Hz.
  rewrite Z.mod_small by lia. lia.
Qed.

Lemma wrap_int_congruent z : (wrap_int z - z) mod 2 ^ 32 = 0.
Proof.
  unfold wrap_int.
  rewrite (Z.mod_eq (z + 2 ^ 31) (2 ^ 32)) by lia.
  replace (z + 2 ^ 31 - 2 ^ 32 * ((z + 2 ^ 31) / 2 ^ 32) - 2 ^ 31 - z)
    with (- ((z + 2 ^ 31) / 2 ^ 32) * 2 ^ 32) by lia.
  apply Z.mod_mul. lia.
Qed.

(** The one call of [poll] in a trace of [select]. *)
Lemma poll_event wld nfds r w e timeout res pollset npfds msec :
  select wld nfds r w e timeout = Some res ->
  EvPoll pollset npfds msec ∈ sel_trace res ->
  pollset = entries r w e (seqZ 0 nfds)
  /\ npfds = count_loop (seqZ 0 nfds) r w e 0%nat
  /\ msec = _set_timeout timeout
  /\ ((0 <? npfds)%nat && negb (alloc_ok wld) = false).
Proof.
  rewrite select_unfold.
  destruct (_ && _) eqn:Halloc; intros [= <-]; simpl.
  - rewrite !elem_of_cons, elem_of_nil. intuition discriminate.
  - repeat match goal with |- context [if ?b then _ else _] => destruct b eqn:? end;
      simpl; rewrite ?elem_of_cons, ?elem_of_nil;
      intros Hin; decompose [or] Hin; try discriminate; try contradiction.
    all: match goal with Heq : EvPoll _ _ _ = EvPoll _ _ _ |- _ =>
           injection Heq as -> -> -> end.
    all: repeat split; congruence.
Qed.

(** C7, as amended. The timeout handed to [poll] is what
    [_set_timeout] computes: -1 for a null pointer, and for a timeval
    the value [tv_sec * 1000 + tv_usec / 1000] brought into the range
    of [int] modulo [2^32], which is that value whenever it fits. *)
Theorem timeout_passed_to_poll wld nfds r w e timeout res pollset npfds msec :
  select wld nfds r w e timeout = Some res ->
  EvPoll pollset npfds msec ∈ sel_trace res ->
  msec = _set_timeout timeout
  /\ INT_MIN <= msec <= INT_MAX
  /\ match timeout with
     | None => msec = -1
     | Some tv =>
         let v := tv_sec tv * 1000 + tv_usec tv ÷ 1000 in
         msec = wrap_int v
         /\ (msec - v) mod 2 ^ 32 = 0
         /\ (INT_MIN <= v <= INT_MAX -> msec = v)
     end.
Proof.
  intros Hsel Hin.
  destruct (poll_event _ _ _ _ _ _ _ _ _ _ Hsel Hin) as (_ & _ & -> & _).
  split; [reflexivity |]. destruct timeout as [tv |]; simpl.
  - split; [apply wrap_int_range |]. split; [reflexivity |].
    split; [apply wrap_int_congruent | apply wrap_int_small].
  - split; [| reflexivity]. unfold INT_MIN, INT_MAX. lia.
Qed.

(** ** Back from the array to the sets *)

Lemma ready_cons mask p ps : ready mask (p :: ps) = ready mask [p] ++ ready mask ps.
Proof.
  unfold ready. simpl.
  destruct (negb (Z.land (revents p) mask =? 0)); reflexivity.
Qed.

Lemma back_if_spec set p mask ret :
  back_if set p mask ret
  = (add_ready (ready mask [p]) set, ret + hits (ready mask [p]) set).
Proof.
  unfold back_if, add_ready, hits, ready, FD_SET.
  destruct set as [s |]; simpl; [| f_equal; lia].
  destruct (Z.land (revents p) mask =? 0); simpl; f_equal.
  - rewrite union_empty_l_L. reflexivity.
  - lia.
  - rewrite union_empty_r_L. reflexivity.
Qed.

Lemma add_ready_app l1 l2 set :
  add_ready l2 (add_ready l1 set) = add_ready (l1 ++ l2) set.
Proof.
  destruct set as [s |]; simpl; [| reflexivity].
  f_equal. rewrite list_to_set_app_L, (assoc_L (∪)).
  rewrite (comm_L (∪) (list_to_set l2)). reflexivity.
Qed.

Lemma hits_add_ready l l' set : hits l (add_ready l' set) = hits l set.
Proof. destruct set; reflexivity. Qed.

Lemma hits_app l1 l2 set : hits (l1 ++ l2) set = hits l1 set + hits l2 set.
Proof. destruct set; simpl; [rewrite length_app |]; lia. Qed.

Lemma back_loop_spec ps :
  forall r w e ret,
    back_loop ps r w e ret
    = (add_ready (ready (Z.lor POLLIN POLLHUP) ps) r,
       add_ready (ready POLLOUT ps) w,
       add_ready (ready POLLERR ps) e,
       ret + hits (ready (Z.lor POLLIN POLLHUP) ps) r
           + hits (ready POLLOUT ps) w
           + hits (ready POLLERR ps) e).
Proof.
  induction ps as [| p ps IH]; intros r w e ret.
  - simpl. unfold add_ready, hits, ready.
    destruct r, w, e; simpl; rewrite ?union_empty_l_L; f_equal; lia.
  - simpl back_loop. rewrite !back_if_spec, IH.
    rewrite !add_ready_app, !hits_add_ready.
    rewrite (ready_cons _ p ps), (ready_cons POLLOUT p ps), (ready_cons POLLERR p ps).
    rewrite !hits_app. f_equal. lia.
Qed.

Lemma fd_entries r w e fds :
  fd <$> entries r w e fds = List.filter (any_watched r w e) fds.
Proof.
  unfold entries. rewrite <- list_fmap_compose.
  induction (List.filter (any_watched r w e) fds) as [| d l IH];
    [reflexivity | simpl; f_equal; exact IH].
Qed.

Lemma NoDup_fd_entries r w e nfds : NoDup (fd <$> entries r w e (seqZ 0 nfds)).
Proof.
  rewrite fd_entries. apply NoDup_ListNoDup, List.NoDup_filter.
  apply NoDup_ListNoDup, NoDup_seqZ.
Qed.

Lemma elem_of_fd_entries r w e nfds d :
  d ∈ fd <$> entries r w e (seqZ 0 nfds)
  <-> 0 <= d < nfds /\ any_watched r w e d = true.
Proof.
  rewrite fd_entries, list_elem_of_In, List.filter_In, <- list_elem_of_In.
  rewrite elem_of_seqZ. intuition lia.
Qed.

Lemma fd_polled reply ps : fd <$> polled reply ps = fd <$> ps.
Proof.
  unfold polled. rewrite fmap_imap.
  rewrite (imap_ext _ (const fd)) by reflexivity. apply imap_const.
Qed.

Lemma NoDup_ready mask ps : NoDup (fd <$> ps) -> NoDup (ready mask ps).
Proof.
  unfold ready. induction ps as [| p ps IH]; simpl; [auto |].
  rewrite NoDup_cons. intros [Hnotin Hnd].
  destruct (negb (Z.land (revents p) mask =? 0)); simpl; [| auto].
  apply NoDup_cons. split; [| auto].
  intros Hin. apply Hnotin.
  apply list_elem_of_fmap in Hin as (q & -> & Hq).
  apply list_elem_of_In, List.filter_In in Hq as [Hq _].
  apply list_elem_of_fmap. exists q. split; [reflexivity |].
  apply list_elem_of_In. exact Hq.
Qed.

Lemma elem_of_ready mask reply ps d :
  d ∈ ready mask (polled reply ps)
  <-> exists i p, ps !! i = Some p /\ fd p = d /\ flagged (p_revents reply i) mask.
Proof.
  unfold ready, flagged. rewrite list_elem_of_fmap. split.
  - intros (q & -> & Hq).
    apply list_elem_of_In, List.filter_In in Hq as [Hq Hflag].
    apply list_elem_of_In, list_elem_of_lookup in Hq as [i Hi].
    unfold polled in Hi. rewrite list_lookup_imap in Hi.
    destruct (ps !! i) as [p |] eqn:Hp; [| discriminate].
    injection Hi as <-. simpl in *. exists i, p.
    apply negb_true_iff, Z.eqb_neq in Hflag. auto.
  - intros (i & p & Hp & <- & Hflag).
    exists (mk_pollfd (fd p) (events p) (p_revents reply i)).
    split; [reflexivity |].
    apply list_elem_of_In, List.filter_In. split.
    + apply list_elem_of_In, list_elem_of_lookup. exists i.
      unfold polled. rewrite list_lookup_imap, Hp. reflexivity.
    + simpl. apply negb_true_iff, Z.eqb_neq. exact Hflag.
Qed.

Lemma flagged_lor rev a b :
  flagged rev (Z.lor a b) <-> flagged rev a \/ flagged rev b.
Proof.
  unfold flagged. rewrite Z.land_lor_distr_r, Z.lor_eq_0_iff.
  destruct (decide (Z.land rev a = 0)), (decide (Z.land rev b = 0)); tauto.
Qed.

Lemma members_add_ready l set :
  members (add_ready l (_reset_fds set))
  = match set with Some _ => list_to_set l | None => ∅ end.
Proof.
  destruct set as [s |]; simpl; [| reflexivity].
  unfold members. simpl. apply union_empty_r_L.
Qed.

Lemma hits_size l set :
  NoDup l ->
  hits l (_reset_fds set)
  = Z.of_nat (size (members (add_ready l (_reset_fds set)))).
Proof.
  intros Hnd. rewrite members_add_ready.
  destruct set as [s |]; simpl.
  - rewrite size_list_to_set by exact Hnd. reflexivity.
  - reflexivity.
Qed.

Lemma watched_members set d : watched set d = true <-> d ∈ members set.
Proof.
  destruct set as [s |]; simpl.
  - unfold FD_ISSET. apply bool_decide_eq_true.
  - unfold members. simpl. rewrite elem_of_empty. split; [discriminate | tauto].
Qed.

Lemma any_watched_members r w e d :
  any_watched r w e d = true <-> d ∈ members r ∪ members w ∪ members e.
Proof.
  unfold any_watched. rewrite !orb_true_iff, !watched_members, !elem_of_union.
  tauto.
Qed.

Lemma back_desc_list_spec reply r w e nfds :
  _back_desc_list (count_loop (seqZ 0 nfds) r w e 0)
    (_reset_fds r) (_reset_fds w) (_reset_fds e)
    (polled reply (entries r w e (seqZ 0 nfds)))
  = let ps := polled reply (entries r w e (seqZ 0 nfds)) in
    (add_ready (ready (Z.lor POLLIN POLLHUP) ps) (_reset_fds r),
     add_ready (ready POLLOUT ps) (_reset_fds w),
     add_ready (ready POLLERR ps) (_reset_fds e),
     0 + hits (ready (Z.lor POLLIN POLLHUP) ps) (_reset_fds r)
       + hits (ready POLLOUT ps) (_reset_fds w)
       + hits (ready POLLERR ps) (_reset_fds e)).
Proof.
  unfold _back_desc_list. rewrite take_ge; [apply back_loop_spec |].
  unfold polled. rewrite length_imap, length_entries, count_loop_spec. lia.
Qed.

(** C8. When [poll] answers with a positive count, the sets [select]
    hands back hold, of the descriptors that were polled (those below
    [nfds] that some set asked for, each polled once), exactly the
    ones whose [revents] carry [POLLIN] or [POLLHUP] (read set),
    [POLLOUT] (write set), [POLLERR] (except set); a set whose pointer
    was null stays null; and the value returned is the number of
    members of the three sets taken together. *)
Theorem select_rebuilds_sets wld nfds r w e timeout res pollset npfds msec :
  select wld nfds r w e timeout = Some res ->
  EvPoll pollset npfds msec ∈ sel_trace res ->
  0 < p_ret (poll wld pollset npfds msec) ->
  let rev := p_revents (poll wld pollset npfds msec) in
  let polled_with (d : Z) (P : Z -> Prop) :=
    exists i p, pollset !! i = Some p /\ fd p = d /\ P (rev i) in
  NoDup (fd <$> pollset)
  /\ (forall d, d ∈ fd <$> pollset
        <-> 0 <= d < nfds /\ d ∈ members r ∪ members w ∪ members e)
  /\ (is_Some (sel_readfds res) <-> is_Some r)
  /\ (is_Some (sel_writefds res) <-> is_Some w)
  /\ (is_Some (sel_exceptfds res) <-> is_Some e)
  /\ (forall d, d ∈ members (sel_readfds res)
        <-> is_Some r
            /\ polled_with d (fun f => flagged f POLLIN \/ flagged f POLLHUP))
  /\ (forall d, d ∈ members (sel_writefds res)
        <-> is_Some w /\ polled_with d (fun f => flagged f POLLOUT))
  /\ (forall d, d ∈ members (sel_exceptfds res)
        <-> is_Some e /\ polled_with d (fun f => flagged f POLLERR))
  /\ sel_ret res
     = Z.of_nat (size (members (sel_readfds res))
                 + size (members (sel_writefds res))
                 + size (members (sel_exceptfds res))).
Proof.
  intros Hsel Hin Hret.
  destruct (poll_event _ _ _ _ _ _ _ _ _ _ Hsel Hin) as (-> & -> & -> & Halloc).
  rewrite select_unfold in Hsel. cbv zeta in Hsel.
  rewrite Halloc in Hsel. apply Z.ltb_lt in Hret. rewrite Hret in Hsel.
  rewrite back_desc_list_spec in Hsel. cbv zeta in Hsel. simpl in Hsel.
  injection Hsel as <-. cbv zeta. simpl sel_readfds. simpl sel_writefds.
  simpl sel_exceptfds. simpl sel_ret.
  set (reply := poll wld _ _ _).
  assert (Hnd : NoDup (fd <$> polled reply (entries r w e (seqZ 0 nfds)))).
  { rewrite fd_polled. apply NoDup_fd_entries. }
  split; [apply NoDup_fd_entries |].
  split; [intros d; rewrite elem_of_fd_entries, any_watched_members; tauto |].
  split; [destruct r; simpl; split; intros [? ?]; eauto; discriminate |].
  split; [destruct w; simpl; split; intros [? ?]; eauto; discriminate |].
  split; [destruct e; simpl; split; intros [? ?]; eauto; discriminate |].
  split; [| split; [| split]].
  - intros d. rewrite members_add_ready. destruct r; simpl.
    + rewrite elem_of_list_to_set, elem_of_ready.
      setoid_rewrite flagged_lor. intuition eauto.
    + rewrite elem_of_empty. split; [tauto | intros [[? ?] _]; discriminate].
  - intros d. rewrite members_add_ready. destruct w; simpl.
    + rewrite elem_of_list_to_set, elem_of_ready. intuition eauto.
    + rewrite elem_of_empty. split; [tauto | intros [[? ?] _]; discriminate].
  - intros d. rewrite members_add_ready. destruct e; simpl.
    + rewrite elem_of_list_to_set, elem_of_ready. intuition eauto.
    + rewrite elem_of_empty. split; [tauto | intros [[? ?] _]; discriminate].
  - rewrite !hits_size by (apply NoDup_ready, Hnd). lia.
Qed.

(** ** The exits of [select] *)

(** Some descriptor below [nfds] is asked for exactly when the
    counting loop counts at least one. *)
Lemma count_positive nfds r w e :
  (0 < count_loop (seqZ 0 nfds) r w e 0)%nat
  <-> exists d, 0 <= d < nfds /\ d ∈ members r ∪ members w ∪ members e.
Proof.
  rewrite count_loop_spec, <- length_entries, <- (length_fmap fd). simpl.
  split.
  - intros Hpos.
    destruct (fd <$> entries r w e (seqZ 0 nfds)) as [| d l] eqn:Hl;
      [simpl in Hpos; lia |].
    exists d. rewrite <- any_watched_members. apply elem_of_fd_entries.
    rewrite Hl. apply list_elem_of_here.
  - intros (d & Hd & Hin). rewrite <- any_watched_members in Hin.
    assert (Hel : d ∈ fd <$> entries r w e (seqZ 0 nfds))
      by (apply elem_of_fd_entries; auto).
    destruct (fd <$> entries r w e (seqZ 0 nfds)); [inversion Hel | simpl; lia].
Qed.

(** X8. When the array cannot be allocated, [select] gives up before
    [poll]: it returns -1 with [errno] set to [ENOMEM], leaves the
    three sets as the caller passed them and leaves the cancellation
    point. *)
Theorem select_out_of_memory wld nfds r w e timeout d :
  alloc_ok wld = false ->
  0 <= d < nfds ->
  d ∈ members r ∪ members w ∪ members e ->
  exists n,
    select wld nfds r w e timeout
    = Some (mk_result (-1) r w e
              [EvEnterCancel; EvAlloc n; EvSetErrno ENOMEM; EvLeaveCancel])
    /\ (0 < n)%nat.
Proof.
  intros Halloc Hd Hin.
  assert (Hpos : (0 < count_loop (seqZ 0 nfds) r w e 0)%nat)
    by (apply count_positive; eauto).
  exists (count_loop (seqZ 0 nfds) r w e 0). split; [| exact Hpos].
  unfold select. apply Nat.ltb_lt in Hpos. rewrite Hpos, Halloc. reflexivity.
Qed.

(** X9. When [poll] reports nothing ready or fails, [select] hands back
    what [poll] returned with every set that was passed emptied; on a
    failure it puts back the [errno] that [poll] left. *)
Theorem select_nothing_ready wld nfds r w e timeout res pollset npfds msec :
  select wld nfds r w e timeout = Some res ->
  EvPoll pollset npfds msec ∈ sel_trace res ->
  p_ret (poll wld pollset npfds msec) <= 0 ->
  sel_ret res = p_ret (poll wld pollset npfds msec)
  /\ sel_readfds res = _reset_fds r
  /\ sel_writefds res = _reset_fds w
  /\ sel_exceptfds res = _reset_fds e
  /\ (EvSetErrno (Saved (p_errno (poll wld pollset npfds msec))) ∈ sel_trace res
      <-> sel_ret res < 0).
Proof.
  intros Hsel Hin Hret.
  destruct (poll_event _ _ _ _ _ _ _ _ _ _ Hsel Hin) as (-> & -> & -> & Halloc).
  rewrite select_unfold in Hsel. cbv zeta in Hsel. rewrite Halloc in Hsel.
  destruct (Z.ltb_spec 0 (p_ret (poll wld (entries r w e (seqZ 0 nfds))
      (count_loop (seqZ 0 nfds) r w e 0) (_set_timeout timeout)))) as [Hlt | _];
    [lia |].
  simpl in Hsel. injection Hsel as <-. simpl.
  repeat split; try reflexivity.
  - intros Hev.
    destruct (Z.ltb_spec (p_ret (poll wld (entries r w e (seqZ 0 nfds))
      (count_loop (seqZ 0 nfds) r w e 0) (_set_timeout timeout))) 0) as [Hneg | Hzero];
      [exact Hneg |].
    exfalso. revert Hev.
    destruct (0 <? count_loop (seqZ 0 nfds) r w e 0)%nat; simpl;
      rewrite !elem_of_cons, elem_of_nil; intuition discriminate.
  - intros Hneg. apply Z.ltb_lt in Hneg. rewrite Hneg.
    destruct (0 <? count_loop (seqZ 0 nfds) r w e 0)%nat; simpl;
      rewrite !elem_of_cons; auto 10.
Qed.

(** X10. Whatever the sets, the timeout and the answers of the allocator
    and of [poll], a call of [select] enters the cancellation point
    first and leaves it last, once each, calls [poll] at most once,
    and frees the array exactly when it allocated one and went on to
    [poll]. *)
Theorem select_brackets wld nfds r w e timeout :
  exists res rest,
    select wld nfds r w e timeout = Some res
    /\ sel_trace res = EvEnterCancel :: rest ++ [EvLeaveCancel]
    /\ occurs is_enter (sel_trace res) = 1%nat
    /\ occurs is_leave (sel_trace res) = 1%nat
    /\ (occurs is_poll (sel_trace res) <= 1)%nat
    /\ occurs is_free (sel_trace res)
       = (occurs is_alloc (sel_trace res) * occurs is_poll (sel_trace res))%nat.
Proof.
  rewrite select_unfold. cbv zeta.
  set (npfds := count_loop (seqZ 0 nfds) r w e 0).
  set (pollset := entries r w e (seqZ 0 nfds)).
  set (back := if 0 <? _ then _ else _).
  destruct (_ && _).
  - exists (mk_result ERROR r w e
              [EvEnterCancel; EvAlloc npfds; EvSetErrno ENOMEM; EvLeaveCancel]),
      [EvAlloc npfds; EvSetErrno ENOMEM].
    repeat split; unfold occurs; simpl; lia.
  - eexists _,
      ((if (0 <? npfds)%nat then [EvAlloc npfds] else [])
       ++ [EvPoll pollset npfds (_set_timeout timeout)]
       ++ (if (0 <? npfds)%nat then [EvFree] else [])
       ++ (if back.2 <? 0
           then [EvSetErrno (Saved (p_errno (poll wld pollset npfds
                                               (_set_timeout timeout))))]
           else [])).
    split; [reflexivity |]. simpl sel_trace.
    destruct (0 <? npfds)%nat, (back.2 <? 0);
      repeat split; unfold occurs; simpl; lia.
Qed.

(** ** The array [_init_desc_list] builds *)

Lemma mark_outside (done : list pollfd) d flag :
  mark (done ++ []) (length done) d flag = None.
Proof.
  unfold mark. rewrite app_nil_r, lookup_ge_None_2 by lia. reflexivity.
Qed.

(** With fewer entries than descriptors asked for, the loop stores
    outside the array. *)
Lemma init_loop_overrun r w e fds :
  forall done k,
    (k < length (entries r w e fds))%nat ->
    init_loop fds r w e (done ++ replicate k zero_pollfd) (length done) = None.
Proof.
  induction fds as [| d fds IH]; intros done k Hk.
  - simpl in Hk. lia.
  - rewrite entries_cons in Hk. simpl init_loop.
    unfold mark_if, any_watched, interest in *.
    destruct (watched r d) eqn:Hr, (watched w d) eqn:Hw, (watched e d) eqn:He;
      simpl in Hk |- *.
    all: try (destruct k as [| k];
              [ simpl replicate; rewrite ?mark_outside; simpl;
                rewrite ?mark_outside; reflexivity
              | simpl replicate;
                rewrite ?mark_middle; simpl;
                rewrite ?mark_middle; simpl;
                rewrite ?mark_middle; simpl;
                rewrite (cons_middle _ done), app_assoc;
                replace (length done + 1)%nat with (length (done ++ [mk_pollfd d
                  (interest r w e d) 0])) by (rewrite length_app; simpl; lia);
                unfold interest; rewrite Hr, Hw, He; simpl;
                apply IH; lia ]).
    rewrite Nat.add_0_r. apply IH. exact Hk.
Qed.

(** C10. The counting loop of [select] and [_init_desc_list] agree.
    The descriptors below [nfds] that some set asks for form a list
    without repetition; the loop counts its length. Given a zeroed
    array with room for that many entries, [_init_desc_list] fills the
    first entries with exactly these descriptors, one entry each and in
    order, with the events of the sets that hold the descriptor, leaves
    every further entry untouched and returns the number of entries it
    filled, which is the count. With less room it stores outside the
    array. No call of [select] takes the [EINVAL] exit behind the
    assertion. *)
Theorem counted_is_filled nfds r w e :
  let asked := List.filter (any_watched r w e) (seqZ 0 nfds) in
  let npfds := count_loop (seqZ 0 nfds) r w e 0 in
  npfds = length asked
  /\ NoDup asked
  /\ (forall d, d ∈ asked
        <-> 0 <= d < nfds /\ d ∈ members r ∪ members w ∪ members e)
  /\ (forall k, (npfds <= k)%nat ->
        _init_desc_list nfds r w e (kmm_zalloc k)
        = Some (((fun d => mk_pollfd d (interest r w e d) 0) <$> asked)
                  ++ kmm_zalloc (k - npfds),
                npfds))
  /\ (forall k, (k < npfds)%nat ->
        _init_desc_list nfds r w e (kmm_zalloc k) = None)
  /\ forall wld timeout,
       exists res, select wld nfds r w e timeout = Some res
                   /\ EvSetErrno EINVAL ∉ sel_trace res.
Proof.
  intros asked npfds.
  assert (Hcount : npfds = length asked) by apply count_loop_spec.
  split; [exact Hcount |]. split.
  { apply NoDup_ListNoDup, List.NoDup_filter. apply NoDup_ListNoDup, NoDup_seqZ. }
  split.
  { intros d. subst asked.
    rewrite list_elem_of_In, List.filter_In, <- list_elem_of_In.
    rewrite elem_of_seqZ, any_watched_members. intuition lia. }
  split.
  { intros k Hk. unfold _init_desc_list, kmm_zalloc.
    pose proof (init_loop_spec r w e (seqZ 0 nfds) [] k) as Hloop.
    rewrite length_entries in Hloop. fold asked in Hloop.
    rewrite <- Hcount in Hloop. simpl in Hloop.
    apply Hloop. exact Hk. }
  split.
  { intros k Hk. unfold _init_desc_list, kmm_zalloc.
    pose proof (init_loop_overrun r w e (seqZ 0 nfds) [] k) as Hover.
    rewrite length_entries in Hover. fold asked in Hover.
    rewrite <- Hcount in Hover. simpl in Hover.
    apply Hover. exact Hk. }
  intros wld timeout. rewrite select_unfold.
  destruct (_ && _); eexists; (split; [reflexivity |]); simpl.
  - rewrite !elem_of_cons, elem_of_nil. intuition discriminate.
  - repeat match goal with |- context [if ?b then _ else _] => destruct b end;
      simpl; rewrite ?elem_of_cons, ?elem_of_nil; intuition discriminate.
Qed.

(** X11. [_init_desc_list] keeps its stores inside a zeroed array exactly
    when the array has at least as many entries as the counting loop
    of [select] counts; it then returns that count and leaves the
    entries beyond it zeroed. *)
Theorem init_desc_list_bounds nfds r w e k :
  let npfds := count_loop (seqZ 0 nfds) r w e 0%nat in
  (_init_desc_list nfds r w e (kmm_zalloc k) = None <-> (k < npfds)%nat)
  /\ ((npfds <= k)%nat ->
      exists pollset,
        _init_desc_list nfds r w e (kmm_zalloc k)
        = Some (pollset ++ kmm_zalloc (k - npfds), npfds)
        /\ length pollset = npfds).
Proof.
  intros npfds. unfold npfds, _init_desc_list, kmm_zalloc.
  rewrite count_loop_spec, <- length_entries. change (0 + ?n)%nat with n.
  assert (Hfits : (length (entries r w e (seqZ 0 nfds)) <= k)%nat ->
            init_loop (seqZ 0 nfds) r w e (replicate k zero_pollfd) 0
            = Some (entries r w e (seqZ 0 nfds)
                      ++ replicate (k - length (entries r w e (seqZ 0 nfds)))
                           zero_pollfd,
                    length (entries r w e (seqZ 0 nfds)))).
  { intros Hle. exact (init_loop_spec r w e (seqZ 0 nfds) [] k Hle). }
  split; [split |].
  - intros Hnone.
    destruct (le_lt_dec (length (entries r w e (seqZ 0 nfds))) k) as [Hle | Hlt];
      [| exact Hlt].
    rewrite (Hfits Hle) in Hnone. discriminate.
  - intros Hlt. exact (init_loop_overrun r w e (seqZ 0 nfds) [] k Hlt).
  - intros Hle. eexists. split; [apply (Hfits Hle) | reflexivity].
Qed.

(** ** What the entries ask for *)

Lemma entries_lookup r w e fds i p :
  entries r w e fds !! i = Some p ->
  p = mk_pollfd (fd p) (interest r w e (fd p)) 0
  /\ any_watched r w e (fd p) = true
  /\ fd p ∈ fds.
Proof.
  intros Hi. apply list_elem_of_lookup_2 in Hi.
  unfold entries in Hi. apply list_elem_of_fmap in Hi as (d & -> & Hd).
  apply list_elem_of_In, List.filter_In in Hd as [Hd Hw]. simpl.
  split; [reflexivity |]. split; [exact Hw | apply list_elem_of_In, Hd].
Qed.

Ltac flag_algebra :=
  repeat match goal with
  | Hz : Z.land ?a ?b = 0 |- _ =>
      lazymatch goal with
      | _ : Z.land b a = 0 |- _ => fail
      | _ => assert (Z.land b a = 0) by (rewrite Z.land_comm; exact Hz)
      end
  end;
  unfold flagged;
  rewrite ?Z.lor_0_l, ?Z.land_lor_distr_l, ?Z.land_lor_distr_r;
  repeat match goal with
  | Hz : Z.land _ _ = 0 |- _ => rewrite !Hz
  end;
  rewrite ?Z.land_diag, ?Z.land_0_l, ?Z.lor_0_l, ?Z.lor_0_r, ?Z.lor_eq_0_iff.

Lemma interest_read r w e d :
  flags_distinct ->
  flagged (interest r w e d) (Z.lor POLLIN POLLHUP) <-> watched r d = true.
Proof.
  intros (Hin & Hout & Herr & Hio & Hie & Hoe & Hho & Hhe).
  unfold interest.
  destruct (watched r d), (watched w d), (watched e d); flag_algebra;
    split; intros; try discriminate; try tauto; intuition congruence.
Qed.

Lemma interest_write r w e d :
  flags_distinct ->
  flagged (interest r w e d) POLLOUT <-> watched w d = true.
Proof.
  intros (Hin & Hout & Herr & Hio & Hie & Hoe & Hho & Hhe).
  unfold interest.
  destruct (watched r d), (watched w d), (watched e d); flag_algebra;
    split; intros; try discriminate; try tauto; intuition congruence.
Qed.

Lemma interest_except r w e d :
  flags_distinct ->
  flagged (interest r w e d) POLLERR <-> watched e d = true.
Proof.
  intros (Hin & Hout & Herr & Hio & Hie & Hoe & Hho & Hhe).
  unfold interest.
  destruct (watched r d), (watched w d), (watched e d); flag_algebra;
    split; intros; try discriminate; try tauto; intuition congruence.
Qed.

Lemma StronglySorted_seq a n : StronglySorted lt (seq a n).
Proof.
  revert a. induction n as [| n IH]; intros a; simpl; constructor.
  - apply IH.
  - apply List.Forall_forall. intros x Hx. apply in_seq in Hx. lia.
Qed.

Lemma StronglySorted_seqZ m n : StronglySorted Z.lt (seqZ m n).
Proof.
  unfold seqZ. apply (StronglySorted_fmap _ lt Z.lt); [| apply StronglySorted_seq].
  intros x y Hxy. lia.
Qed.

Lemma StronglySorted_filter {A} (R : A -> A -> Prop) f l :
  StronglySorted R l -> StronglySorted R (List.filter f l).
Proof.
  induction 1 as [| x l Hl IH Hx]; simpl; [constructor |].
  destruct (f x); [| exact IH]. constructor; [exact IH |].
  apply List.Forall_forall. intros y Hy. apply List.filter_In in Hy as [Hy _].
  revert y Hy. apply List.Forall_forall. exact Hx.
Qed.

(** X12. The array [select] passes to [poll]: one entry for each descriptor
    below [nfds] that some set asks for, in ascending order of
    descriptor, with [revents] zero and with [events] carrying the
    read, write and error flag exactly for the sets that hold the
    descriptor. *)
Theorem init_desc_list_entries nfds r w e pollset ndx :
  flags_distinct ->
  _init_desc_list nfds r w e (kmm_zalloc (count_loop (seqZ 0 nfds) r w e 0))
    = Some (pollset, ndx) ->
  length pollset = ndx
  /\ StronglySorted Z.lt (fd <$> pollset)
  /\ (forall d, d ∈ fd <$> pollset
        <-> 0 <= d < nfds /\ d ∈ members r ∪ members w ∪ members e)
  /\ (forall p, p ∈ pollset ->
        revents p = 0
        /\ (flagged (events p) POLLIN <-> fd p ∈ members r)
        /\ (flagged (events p) POLLOUT <-> fd p ∈ members w)
        /\ (flagged (events p) POLLERR <-> fd p ∈ members e)).
Proof.
  intros Hflags. rewrite init_desc_list_spec. intros [= <- <-].
  split; [rewrite length_entries, count_loop_spec; reflexivity |].
  split; [rewrite fd_entries; apply StronglySorted_filter, StronglySorted_seqZ |].
  split; [intros d; rewrite elem_of_fd_entries, any_watched_members; tauto |].
  intros p Hp. apply list_elem_of_lookup in Hp as [i Hi].
  apply entries_lookup in Hi as (Hp & _ & _).
  rewrite Hp. simpl. split; [reflexivity |].
  rewrite <- !watched_members.
  split; [| split; [apply interest_write | apply interest_except]]; auto.
  destruct Hflags as (Hin & Hout & Herr & Hio & Hie & Hoe & Hho & Hhe).
  unfold interest.
  destruct (watched r (fd p)), (watched w (fd p)), (watched e (fd p));
    flag_algebra; split; intros; try discriminate; try tauto; intuition congruence.
Qed.

(** ** The positive exit *)

Lemma select_ready wld nfds r w e timeout res pollset npfds msec :
  select wld nfds r w e timeout = Some res ->
  EvPoll pollset npfds msec ∈ sel_trace res ->
  0 < p_ret (poll wld pollset npfds msec) ->
  let ps := polled (poll wld pollset npfds msec) pollset in
  pollset = entries r w e (seqZ 0 nfds)
  /\ npfds = length pollset
  /\ sel_readfds res = add_ready (ready (Z.lor POLLIN POLLHUP) ps) (_reset_fds r)
  /\ sel_writefds res = add_ready (ready POLLOUT ps) (_reset_fds w)
  /\ sel_exceptfds res = add_ready (ready POLLERR ps) (_reset_fds e)
  /\ sel_ret res
     = hits (ready (Z.lor POLLIN POLLHUP) ps) (_reset_fds r)
       + hits (ready POLLOUT ps) (_reset_fds w)
       + hits (ready POLLERR ps) (_reset_fds e).
Proof.
  intros Hsel Hin Hret.
  destruct (poll_event _ _ _ _ _ _ _ _ _ _ Hsel Hin) as (-> & -> & -> & Halloc).
  rewrite select_unfold in Hsel. cbv zeta in Hsel.
  rewrite Halloc in Hsel. apply Z.ltb_lt in Hret. rewrite Hret in Hsel.
  rewrite back_desc_list_spec in Hsel. cbv zeta in Hsel. simpl in Hsel.
  injection Hsel as <-. cbv zeta. simpl.
  repeat split; try reflexivity.
  rewrite length_entries, count_loop_spec. reflexivity.
Qed.

Lemma length_ready mask ps : (length (ready mask ps) <= length ps)%nat.
Proof.
  unfold ready. rewrite length_fmap. apply List.filter_length_le.
Qed.

Lemma hits_bound l set n : (length l <= n)%nat -> 0 <= hits l set <= Z.of_nat n.
Proof. destruct set; simpl; lia. Qed.

(** X13. On the positive exit the value [select] returns lies between 0
    and three times the number of entries polled. *)
Theorem select_count_bounds wld nfds r w e timeout res pollset npfds msec :
  select wld nfds r w e timeout = Some res ->
  EvPoll pollset npfds msec ∈ sel_trace res ->
  0 < p_ret (poll wld pollset npfds msec) ->
  0 <= sel_ret res <= 3 * Z.of_nat npfds.
Proof.
  intros Hsel Hin Hret.
  destruct (select_ready _ _ _ _ _ _ _ _ _ _ Hsel Hin Hret)
    as (_ & -> & _ & _ & _ & ->).
  set (ps := polled _ pollset).
  assert (Hlen : length ps = length pollset) by apply length_imap.
  pose proof (hits_bound (ready (Z.lor POLLIN POLLHUP) ps) (_reset_fds r)
                (length pollset)) as H1.
  pose proof (hits_bound (ready POLLOUT ps) (_reset_fds w) (length pollset)) as H2.
  pose proof (hits_bound (ready POLLERR ps) (_reset_fds e) (length pollset)) as H3.
  rewrite <- Hlen in H1, H2, H3.
  specialize (H1 (length_ready _ _)). specialize (H2 (length_ready _ _)).
  specialize (H3 (length_ready _ _)). lia.
Qed.

(** ** Round trip through an echoing [poll] *)

Lemma echo_ready wld nfds r w e msec mask set d :
  let pollset := entries r w e (seqZ 0 nfds) in
  let reply := poll wld pollset (length pollset) msec in
  (forall i p, pollset !! i = Some p -> p_revents reply i = events p) ->
  (forall d', flagged (interest r w e d') mask <-> watched set d' = true) ->
  (forall d', watched set d' = true -> any_watched r w e d' = true) ->
  d ∈ ready mask (polled reply pollset)
  <-> 0 <= d < nfds /\ watched set d = true.
Proof.
  intros pollset reply Hecho Hmask Hsub. rewrite elem_of_ready. split.
  - intros (i & p & Hi & <- & Hflag).
    rewrite (Hecho i p Hi) in Hflag.
    apply entries_lookup in Hi as (Hp & _ & Hin).
    rewrite Hp in Hflag. simpl in Hflag. apply Hmask in Hflag.
    apply elem_of_seqZ in Hin. split; [lia | exact Hflag].
  - intros [Hd Hw].
    assert (Hin : d ∈ fd <$> pollset)
      by (apply elem_of_fd_entries; split; [exact Hd | apply Hsub, Hw]).
    apply list_elem_of_fmap in Hin as (p & -> & Hp).
    apply list_elem_of_lookup in Hp as [i Hi].
    exists i, p. split; [exact Hi |]. split; [reflexivity |].
    rewrite (Hecho i p Hi).
    apply entries_lookup in Hi as (Hp & _ & _).
    rewrite Hp. simpl. apply Hmask, Hw.
Qed.

Lemma echo_members wld nfds r w e msec mask set :
  let pollset := entries r w e (seqZ 0 nfds) in
  let reply := poll wld pollset (length pollset) msec in
  (forall i p, pollset !! i = Some p -> p_revents reply i = events p) ->
  (forall d', flagged (interest r w e d') mask <-> watched set d' = true) ->
  (forall d', watched set d' = true -> any_watched r w e d' = true) ->
  members (add_ready (ready mask (polled reply pollset)) (_reset_fds set))
  = below nfds set.
Proof.
  intros pollset reply Hecho Hmask Hsub. subst reply pollset.
  apply set_eq. intros d. unfold below. rewrite elem_of_filter.
  rewrite members_add_ready. destruct set as [s |] eqn:Hset.
  - rewrite elem_of_list_to_set.
    rewrite (echo_ready wld nfds r w e msec mask (Some s) d Hecho Hmask Hsub).
    rewrite watched_members. reflexivity.
  - unfold members. simpl. rewrite elem_of_empty. tauto.
Qed.

(** X14. If [poll] reports for every entry exactly the events that were
    asked for, [select] hands back each set as it was passed, cut down
    to the descriptors below [nfds], and returns the number of members
    the three have together. *)
Theorem select_echo wld nfds r w e timeout res pollset npfds msec :
  flags_distinct ->
  select wld nfds r w e timeout = Some res ->
  EvPoll pollset npfds msec ∈ sel_trace res ->
  0 < p_ret (poll wld pollset npfds msec) ->
  (forall i p, pollset !! i = Some p ->
     p_revents (poll wld pollset npfds msec) i = events p) ->
  members (sel_readfds res) = below nfds r
  /\ members (sel_writefds res) = below nfds w
  /\ members (sel_exceptfds res) = below nfds e
  /\ sel_ret res
     = Z.of_nat (size (below nfds r) + size (below nfds w) + size (below nfds e)).
Proof.
  intros Hflags Hsel Hin Hret Hecho.
  destruct (select_ready _ _ _ _ _ _ _ _ _ _ Hsel Hin Hret)
    as (-> & -> & -> & -> & -> & ->).
  assert (Hnd : NoDup (fd <$> polled
            (poll wld (entries r w e (seqZ 0 nfds))
               (length (entries r w e (seqZ 0 nfds))) msec)
            (entries r w e (seqZ 0 nfds)))).
  { rewrite fd_polled. apply NoDup_fd_entries. }
  rewrite !hits_size by (apply NoDup_ready, Hnd).
  assert (Hr : forall d', watched r d' = true -> any_watched r w e d' = true)
    by (intros d' Hd; unfold any_watched; rewrite Hd; reflexivity).
  assert (Hw : forall d', watched w d' = true -> any_watched r w e d' = true)
    by (intros d' Hd; unfold any_watched; rewrite Hd; apply orb_true_iff;
        left; apply orb_true_r).
  assert (He : forall d', watched e d' = true -> any_watched r w e d' = true)
    by (intros d' Hd; unfold any_watched; rewrite Hd; apply orb_true_r).
  rewrite (echo_members wld nfds r w e msec _ r Hecho
             (fun d' => interest_read r w e d' Hflags) Hr).
  rewrite (echo_members wld nfds r w e msec _ w Hecho
             (fun d' => interest_write r w e d' Hflags) Hw).
  rewrite (echo_members wld nfds r w e msec _ e Hecho
             (fun d' => interest_except r w e d' Hflags) He).
  repeat split. lia.
Qed.

End ShimFacts.


(** C7, as stated, fails once the milliseconds leave the range of
    [int]: 2147484 seconds reach [poll] as a negative number, which
    [poll] takes as "no timeout". *)
Lemma timeout_not_exact : ~ @timeout_exact posix_flags.
Proof.
  intros Hexact.
  pose proof (Hexact idle_world 0 None None None
                (Some (mk_timeval 2147484 0))
                (mk_result 0 None None None
                   [EvEnterCancel; EvPoll [] 0 (-2147483296); EvLeaveCancel])
                [] 0%nat (-2147483296) eq_refl) as Hbad.
  simpl in Hbad. enough (-2147483296 = 2147484 * 1000 + 0 ÷ 1000) by discriminate.
  apply Hbad. apply list_elem_of_In. simpl. auto.
Qed.

Lemma timeout_passed_to_poll_witness :
  -2147483296 = _set_timeout (Some (mk_timeval 2147484 0))
  /\ INT_MIN <= -2147483296 <= INT_MAX
  /\ (-2147483296 = wrap_int 2147484000
      /\ (-2147483296 - 2147484000) mod 2 ^ 32 = 0
      /\ (INT_MIN <= 2147484000 <= INT_MAX -> -2147483296 = 2147484000)).
Proof.
  apply (@timeout_passed_to_poll posix_flags idle_world 0 None None None
           (Some (mk_timeval 2147484 0))
           (mk_result 0 None None None
              [EvEnterCancel; EvPoll [] 0 (-2147483296); EvLeaveCancel])
           [] 0%nat (-2147483296)).
  - reflexivity.
  - apply list_elem_of_In. simpl. auto.
Defined.


Lemma select_rebuilds_sets_witness :
  @select posix_flags demo_world 4 demo_readfds demo_writefds None None
    = Some demo_result
  /\ 0 < p_ret (poll demo_world demo_pollset 2 (-1))
  /\ (forall d, d ∈ members (sel_readfds demo_result)
        <-> is_Some demo_readfds
            /\ exists i p, demo_pollset !! i = Some p /\ fd p = d
                 /\ (flagged (p_revents (poll demo_world demo_pollset 2 (-1)) i) 0x01
                     \/ flagged (p_revents (poll demo_world demo_pollset 2 (-1)) i) 0x10))
  /\ sel_ret demo_result
     = Z.of_nat (size (members (sel_readfds demo_result))
                 + size (members (sel_writefds demo_result))
                 + size (members (sel_exceptfds demo_result))).
Proof.
  assert (Hsel : @select posix_flags demo_world 4 demo_readfds demo_writefds None None
                 = Some demo_result) by (vm_compute; reflexivity).
  assert (Hin : EvPoll demo_pollset 2 (-1) ∈ sel_trace demo_result)
    by (apply list_elem_of_In; simpl; auto).
  assert (Hret : 0 < p_ret (poll demo_world demo_pollset 2 (-1))) by reflexivity.
  destruct (@select_rebuilds_sets posix_flags demo_world 4 demo_readfds
              demo_writefds None None demo_result demo_pollset 2%nat (-1)
              Hsel Hin Hret)
    as (_ & _ & _ & _ & _ & Hread & _ & _ & Hcount).
  split; [exact Hsel |]. split; [exact Hret |]. split; [exact Hread | exact Hcount].
Defined.


(** ** The exits of [select] on the example call *)

Lemma posix_flags_distinct : @flags_distinct posix_flags.
Proof. repeat split; (discriminate || reflexivity). Defined.

Lemma demo_poll_event (res : sel_result) :
  sel_trace res
  = [EvEnterCancel; EvAlloc 2; EvPoll demo_pollset 2 (-1); EvFree; EvLeaveCancel] ->
  EvPoll demo_pollset 2 (-1) ∈ sel_trace res.
Proof. intros ->. apply list_elem_of_In. simpl. auto. Defined.

Lemma select_out_of_memory_witness :
  exists n,
    @select posix_flags starved_world 4 demo_readfds demo_writefds None None
    = Some (mk_result (-1) demo_readfds demo_writefds None
              [EvEnterCancel; EvAlloc n; EvSetErrno ENOMEM; EvLeaveCancel])
    /\ (0 < n)%nat.
Proof.
  apply (@select_out_of_memory posix_flags starved_world 4 demo_readfds
           demo_writefds None None 3).
  - reflexivity.
  - lia.
  - vm_compute. reflexivity.
Defined.

Lemma select_nothing_ready_witness :
  sel_ret idle_result = p_ret (poll idle_world demo_pollset 2 (-1))
  /\ sel_readfds idle_result = _reset_fds demo_readfds
  /\ sel_writefds idle_result = _reset_fds demo_writefds
  /\ sel_exceptfds idle_result = _reset_fds None
  /\ (EvSetErrno (Saved (p_errno (poll idle_world demo_pollset 2 (-1))))
        ∈ sel_trace idle_result
      <-> sel_ret idle_result < 0).
Proof.
  apply (@select_nothing_ready posix_flags idle_world 4 demo_readfds
           demo_writefds None None idle_result demo_pollset 2%nat (-1)).
  - vm_compute. reflexivity.
  - apply demo_poll_event. reflexivity.
  - simpl. lia.
Defined.

Lemma init_desc_list_entries_witness :
  length demo_pollset = 2%nat
  /\ StronglySorted Z.lt (fd <$> demo_pollset)
  /\ (forall d, d ∈ fd <$> demo_pollset
        <-> 0 <= d < 4 /\ d ∈ members demo_readfds ∪ members demo_writefds
                              ∪ members None)
  /\ (forall p, p ∈ demo_pollset ->
        revents p = 0
        /\ (flagged (events p) 0x01 <-> fd p ∈ members demo_readfds)
        /\ (flagged (events p) 0x04 <-> fd p ∈ members demo_writefds)
        /\ (flagged (events p) 0x08 <-> fd p ∈ members None)).
Proof.
  apply (@init_desc_list_entries posix_flags 4 demo_readfds demo_writefds None
           demo_pollset 2%nat posix_flags_distinct).
  vm_compute. reflexivity.
Defined.

Lemma select_count_bounds_witness : 0 <= sel_ret demo_result <= 3 * Z.of_nat 2.
Proof.
  apply (@select_count_bounds posix_flags demo_world 4 demo_readfds demo_writefds
           None None demo_result demo_pollset 2%nat (-1)).
  - vm_compute. reflexivity.
  - apply demo_poll_event. reflexivity.
  - reflexivity.
Defined.

Lemma select_echo_witness :
  members (sel_readfds echo_result) = below 4 demo_readfds
  /\ members (sel_writefds echo_result) = below 4 demo_writefds
  /\ members (sel_exceptfds echo_result) = below 4 None
  /\ sel_ret echo_result
     = Z.of_nat (size (below 4 demo_readfds) + size (below 4 demo_writefds)
                 + size (below 4 None)).
Proof.
  apply (@select_echo posix_flags echo_world 4 demo_readfds demo_writefds
           None None echo_result demo_pollset 2%nat (-1) posix_flags_distinct).
  - vm_compute. reflexivity.
  - apply demo_poll_event. reflexivity.
  - reflexivity.
  - intros [| [| i]] p Hp; simpl in Hp; try discriminate;
      injection Hp as <-; reflexivity.
Defined.

End SelectFacts.

(** * Properties of the interrupt controller *)

Module TivaFacts.
Import Tiva TivaSpec.

(** ** Words of 32 bits *)

Lemma u32_bits z i : 0 <= i < 32 -> Z.testbit (u32 z) i = Z.testbit z i.
Proof. intros Hi. unfold u32. apply Z.mod_pow2_bits_low. lia. Qed.

Lemma u32_range z : 0 <= u32 z < 2 ^ 32.
Proof. unfold u32. apply Z.mod_pos_bound. lia. Qed.

Lemma u32_small z : 0 <= z < 2 ^ 32 -> u32 z = z.
Proof. intros Hz. unfold u32. apply Z.mod_small, Hz. Qed.

Lemma u32_bit n : 0 <= n < 32 -> u32 (Z.shiftl 1 n) = 2 ^ n.
Proof.
  intros Hn. rewrite Z.shiftl_1_l. apply u32_small.
  split; [apply Z.pow_nonneg; lia | apply Z.pow_lt_mono_r; lia].
Qed.

Section ControllerFacts.
Context `{NvicMap}.

(** ** [tiva_irqinfo] *)

Lemma bank_split k j :
  0 <= k - 32 * j < 32 -> k / 32 = j /\ k mod 32 = k - 32 * j.
Proof. intros Hk. Z.div_mod_to_equations. lia. Qed.

(** For an external interrupt [tiva_irqinfo] answers [OK] with the
    enable register of the interrupt's bank of 32, moved by [offset],
    and with a word that has the one bit of the interrupt's place in
    the bank. *)
Lemma irqinfo_external_form irq out offset :
  external irq ->
  tiva_irqinfo irq out offset
  = (OK, (u32 (enable_reg ((irq - TIVA_IRQ_INTERRUPTS) / 32) + offset),
          2 ^ ((irq - TIVA_IRQ_INTERRUPTS) mod 32))).
Proof.
  intros [[Hlo Hhi] Hbank]. unfold tiva_irqinfo, banks, enable_reg in *.
  destruct (Z.leb_spec TIVA_IRQ_INTERRUPTS irq); [| lia].
  destruct (Z.leb_spec NR_IRQS irq); [lia |].
  destruct (Z.ltb_spec irq (TIVA_IRQ_INTERRUPTS + 32)).
  { destruct (bank_split (irq - TIVA_IRQ_INTERRUPTS) 0) as [-> ->]; [lia |].
    rewrite u32_bit by lia. simpl. do 3 f_equal; lia. }
  destruct (Z.ltb_spec irq (TIVA_IRQ_INTERRUPTS + 64)).
  { destruct (bank_split (irq - TIVA_IRQ_INTERRUPTS) 1) as [-> ->]; [lia |].
    rewrite u32_bit by lia. simpl. do 3 f_equal; lia. }
  destruct (Z.ltb_spec 63 NR_VECTORS); simpl.
  - destruct (Z.ltb_spec irq (TIVA_IRQ_INTERRUPTS + 96)).
    { destruct (bank_split (irq - TIVA_IRQ_INTERRUPTS) 2) as [-> ->]; [lia |].
      rewrite u32_bit by lia. simpl. do 3 f_equal; lia. }
    destruct (Z.ltb_spec 95 NR_VECTORS); simpl; [| lia].
    destruct (Z.ltb_spec irq (TIVA_IRQ_INTERRUPTS + 128)); [| lia].
    destruct (bank_split (irq - TIVA_IRQ_INTERRUPTS) 3) as [-> ->]; [lia |].
    rewrite u32_bit by lia. simpl. do 3 f_equal; lia.
  - destruct (Z.ltb_spec 95 NR_VECTORS); simpl; lia.
Qed.

(** X15. Two external interrupts never share an enable bit: where the four
    enable registers lie at different addresses, the register and the
    bit [tiva_irqinfo] gives tell the interrupt. *)
Theorem irqinfo_external_injective irq irq' out out' offset :
  banks_apart offset ->
  external irq ->
  external irq' ->
  (tiva_irqinfo irq out offset).2 = (tiva_irqinfo irq' out' offset).2 ->
  irq = irq'.
Proof.
  intros Hapart Hext Hext'.
  rewrite (irqinfo_external_form irq out offset Hext).
  rewrite (irqinfo_external_form irq' out' offset Hext'). simpl.
  intros [= Hreg Hbit].
  apply Z.pow_inj_r in Hbit;
    [| lia | apply Z.mod_pos_bound; lia | apply Z.mod_pos_bound; lia].
  destruct Hext as [[Hlo Hhi] Hbank], Hext' as [[Hlo' Hhi'] Hbank'].
  assert (Hb : banks <= 4) by (unfold banks; repeat case_match; lia).
  apply Hapart in Hreg; [| Z.div_mod_to_equations; lia..].
  Z.div_mod_to_equations. lia.
Qed.

(** [tiva_irqinfo] answers [OK] for the external interrupts it has a
    register for and for the four exceptions it has a bit for, and for
    nothing else. *)
Lemma irqinfo_status irq out offset :
  (tiva_irqinfo irq out offset).1 = OK <-> external irq \/ switchable irq.
Proof.
  unfold tiva_irqinfo, external, switchable, banks, OK, ERROR.
  repeat match goal with
  | |- context [?a <=? ?b] => destruct (Z.leb_spec0 a b)
  | |- context [?a <? ?b] => destruct (Z.ltb_spec0 a b)
  | |- context [?a =? ?b] => destruct (Z.eqb_spec a b)
  end; simpl; split; intros; try discriminate; try tauto; try lia.
Qed.

Lemma irqinfo_system irq out offset :
  switchable irq ->
  exists regaddr bit,
    tiva_irqinfo irq out offset = (OK, (regaddr, bit))
    /\ forall out' offset', tiva_irqinfo irq out' offset' = (OK, (regaddr, bit)).
Proof.
  intros [Hlt Hirq]. unfold tiva_irqinfo.
  destruct (Z.leb_spec TIVA_IRQ_INTERRUPTS irq); [lia |].
  repeat match goal with
  | |- context [Z.eqb ?a ?b] => destruct (Z.eqb_spec a b)
  end; try (do 2 eexists; split; [reflexivity | intros; reflexivity]).
  lia.
Qed.

(** ** [up_enable_irq] and [up_disable_irq] *)

(** X16. An external interrupt is enabled, and disabled, by one store and
    no load: the word with the interrupt's one bit goes to the enable
    register of its bank, for disabling to the register that lies
    [NVIC_IRQ0_31_CLEAR - NVIC_IRQ0_31_ENABLE] further on. Neither the
    registers' contents nor what the locals held matter. *)
Theorem external_irq_single_store regs junk irq :
  external irq ->
  let bit := 2 ^ ((irq - TIVA_IRQ_INTERRUPTS) mod 32) in
  let bank := (irq - TIVA_IRQ_INTERRUPTS) / 32 in
  up_enable_irq regs junk irq = [RegPut bit (u32 (enable_reg bank + 0))]
  /\ up_disable_irq regs junk irq
     = [RegPut bit (u32 (enable_reg bank
                         + (NVIC_IRQ0_31_CLEAR - NVIC_IRQ0_31_ENABLE)))].
Proof.
  intros Hext bit bank. unfold up_enable_irq, up_disable_irq.
  rewrite !(irqinfo_external_form irq junk _ Hext). simpl.
  destruct Hext as [[Hlo _] _].
  destruct (Z.leb_spec TIVA_IRQ_INTERRUPTS irq); [| lia].
  split; reflexivity.
Qed.

(** X17. An interrupt number that is neither an external interrupt with a
    register nor one of the four exceptions with a bit makes both
    functions return without touching a register; every other number
    makes them touch one. *)
Theorem unknown_irq_touches_nothing regs junk irq :
  (up_enable_irq regs junk irq = [] <-> ~ (external irq \/ switchable irq))
  /\ (up_disable_irq regs junk irq = [] <-> ~ (external irq \/ switchable irq)).
Proof.
  unfold up_enable_irq, up_disable_irq.
  pose proof (irqinfo_status irq junk NVIC_ENA_OFFSET) as He.
  pose proof (irqinfo_status irq junk NVIC_CLRENA_OFFSET) as Hd.
  destruct (tiva_irqinfo irq junk NVIC_ENA_OFFSET) as [s1 [r1 b1]].
  destruct (tiva_irqinfo irq junk NVIC_CLRENA_OFFSET) as [s2 [r2 b2]].
  simpl in He, Hd. unfold OK in *.
  split.
  - destruct (Z.eqb_spec s1 0) as [-> | Hne].
    + destruct (TIVA_IRQ_INTERRUPTS <=? irq); split; intros; try discriminate;
        tauto.
    + split; [tauto | reflexivity].
  - destruct (Z.eqb_spec s2 0) as [-> | Hne].
    + destruct (TIVA_IRQ_INTERRUPTS <=? irq); split; intros; try discriminate;
        tauto.
    + split; [tauto | reflexivity].
Qed.

(** X18. A processor exception is switched by a load and a store to one
    and the same register, whatever offset the caller asked for.
    Enabling sets the bits of the exception's mask and keeps the
    others as read; disabling after that clears the mask's bits again
    and leaves the others as they were before the pair. *)
Theorem system_enable_then_disable regs junk junk' irq :
  switchable irq ->
  exists regaddr bit v1 v2,
    (tiva_irqinfo irq junk NVIC_ENA_OFFSET).2 = (regaddr, bit)
    /\ up_enable_irq regs junk irq = [RegGet regaddr; RegPut v1 regaddr]
    /\ up_disable_irq (reg_set regs regaddr v1) junk' irq
       = [RegGet regaddr; RegPut v2 regaddr]
    /\ forall i, 0 <= i < 32 ->
         Z.testbit v1 i = Z.testbit (regs regaddr) i || Z.testbit bit i
         /\ Z.testbit v2 i
            = Z.testbit (regs regaddr) i && negb (Z.testbit bit i).
Proof.
  intros Hsys.
  destruct (irqinfo_system irq junk NVIC_ENA_OFFSET Hsys)
    as (regaddr & bit & Hinfo & Hany).
  destruct Hsys as [Hlt _].
  exists regaddr, bit.
  exists (u32 (Z.lor (getreg32 regs regaddr) bit)).
  exists (u32 (Z.land (getreg32 (reg_set regs regaddr
                                   (u32 (Z.lor (getreg32 regs regaddr) bit)))
                                regaddr)
                      (Z.lnot bit))).
  unfold up_enable_irq, up_disable_irq.
  rewrite Hinfo, (Hany junk' NVIC_CLRENA_OFFSET). simpl.
  destruct (Z.leb_spec TIVA_IRQ_INTERRUPTS irq); [lia |].
  repeat split.
  - unfold getreg32. rewrite u32_bits, Z.lor_spec, u32_bits by lia.
    reflexivity.
  - unfold getreg32, reg_set. rewrite Z.eqb_refl.
    rewrite u32_bits, Z.land_spec, !u32_bits, Z.lor_spec, u32_bits,
      Z.lnot_spec by lia.
    destruct (Z.testbit (regs regaddr) i), (Z.testbit bit i); reflexivity.
Qed.

(** ** [up_prioritize_irq] and [DEFPRIORITY32] *)

Lemma shift_lane x : Z.shiftl (Z.land x 3) 3 = 8 * (x mod 4).
Proof.
  change 3 with (Z.ones 2) at 1.
  rewrite Z.land_ones, Z.shiftl_mul_pow2 by lia.
  change (2 ^ 2) with 4. change (2 ^ 3) with 8. lia.
Qed.

Lemma byte_high p k : 0 <= p < 256 -> 8 <= k -> Z.testbit p k = false.
Proof.
  intros Hp Hk. rewrite <- (Z.mod_small p (2 ^ 8)) by (change (2 ^ 8) with 256; lia).
  apply Z.mod_pow2_bits_high. lia.
Qed.

Lemma ff_bits k : Z.testbit 255 k = (0 <=? k) && (k <? 8).
Proof.
  destruct (Z.leb_spec 0 k).
  - change 255 with (Z.ones 8). rewrite Z.testbit_ones_nonneg by lia.
    reflexivity.
  - simpl. apply Z.testbit_neg_r. lia.
Qed.

Lemma lane_update old irq' priority i :
  0 <= priority < 256 -> 0 <= i < 32 ->
  Z.testbit
    (u32 (Z.lor (u32 (Z.land (u32 old)
                        (Z.lnot (Z.shiftl 255 (Z.shiftl (Z.land irq' 3) 3)))))
                (Z.shiftl priority (Z.shiftl (Z.land irq' 3) 3)))) i
  = if decide (8 * (irq' mod 4) <= i < 8 * (irq' mod 4) + 8)
    then Z.testbit priority (i - 8 * (irq' mod 4))
    else Z.testbit old i.
Proof.
  intros Hp Hi. rewrite shift_lane.
  pose proof (Z.mod_pos_bound irq' 4 ltac:(lia)) as Hl.
  set (l := irq' mod 4) in *.
  rewrite u32_bits, Z.lor_spec, u32_bits, Z.land_spec, u32_bits, Z.lnot_spec,
    !Z.shiftl_spec, ff_bits by lia.
  destruct (decide (8 * l <= i < 8 * l + 8)) as [Hin | Hout].
  - destruct (Z.leb_spec 0 (i - 8 * l)); [| lia].
    destruct (Z.ltb_spec (i - 8 * l) 8); [| lia].
    simpl. rewrite andb_false_r. reflexivity.
  - destruct (Z.leb_spec 0 (i - 8 * l)).
    + destruct (Z.ltb_spec (i - 8 * l) 8); [lia |].
      rewrite (byte_high priority) by lia. simpl.
      rewrite andb_true_r, orb_false_r. reflexivity.
    + rewrite (Z.testbit_neg_r priority) by lia. simpl.
      rewrite andb_true_r, orb_false_r. reflexivity.
Qed.

(** X19. With a priority of at most 255, [up_prioritize_irq] loads the
    interrupt's priority register once and stores it once: in the
    word stored the interrupt's byte holds the priority and the
    other three bytes are as they were read. It returns [OK]. *)
Theorem prioritize_writes_one_lane regs irq priority :
  0 <= priority < 256 ->
  exists v,
    up_prioritize_irq regs irq priority
    = (OK, [RegGet (priority_reg irq); RegPut v (priority_reg irq)])
    /\ 0 <= v < 2 ^ 32
    /\ forall i, 0 <= i < 32 ->
         Z.testbit v i
         = if decide (8 * priority_lane irq <= i < 8 * priority_lane irq + 8)
           then Z.testbit priority (i - 8 * priority_lane irq)
           else Z.testbit (regs (priority_reg irq)) i.
Proof.
  intros Hp. unfold up_prioritize_irq, priority_reg, priority_lane, getreg32.
  destruct (irq <? TIVA_IRQ_INTERRUPTS).
  - eexists. split; [reflexivity |]. split; [apply u32_range |].
    intros i Hi. apply lane_update; assumption.
  - eexists. split; [reflexivity |]. split; [apply u32_range |].
    intros i Hi. apply lane_update; assumption.
Qed.

(** X20. When the default priority fits a byte, each of the four bytes of
    [DEFPRIORITY32] is that priority. *)
Theorem defpriority32_lanes i :
  0 <= NVIC_SYSH_PRIORITY_DEFAULT < 256 ->
  0 <= i < 32 ->
  Z.testbit DEFPRIORITY32 i = Z.testbit NVIC_SYSH_PRIORITY_DEFAULT (i mod 8).
Proof.
  intros Hd Hi. unfold DEFPRIORITY32.
  rewrite u32_bits, !Z.lor_spec, !Z.shiftl_spec by lia.
  assert (Hlow : forall k, k < 0 -> Z.testbit NVIC_SYSH_PRIORITY_DEFAULT k = false)
    by (intros; apply Z.testbit_neg_r; lia).
  assert (Hhigh : forall k, 8 <= k -> Z.testbit NVIC_SYSH_PRIORITY_DEFAULT k = false)
    by (intros; apply byte_high; lia).
  assert (Hcase : i mod 8 = i \/ i mod 8 = i - 8 \/ i mod 8 = i - 16
                  \/ i mod 8 = i - 24).
  { pose proof (Z.div_mod i 8 ltac:(lia)).
    pose proof (Z.mod_pos_bound i 8 ltac:(lia)).
    assert (0 <= i / 8 < 4) by (split; [apply Z.div_pos | apply Z.div_lt_upper_bound]; lia).
    lia. }
  pose proof (Z.mod_pos_bound i 8 ltac:(lia)) as Hm.
  destruct Hcase as [Hc | [Hc | [Hc | Hc]]]; rewrite Hc.
  - rewrite (Hlow (i - 24)), (Hlow (i - 16)), (Hlow (i - 8)) by lia.
    reflexivity.
  - rewrite (Hlow (i - 24)), (Hlow (i - 16)), (Hhigh i) by lia.
    simpl. rewrite orb_false_r. reflexivity.
  - rewrite (Hlow (i - 24)), (Hhigh (i - 8)), (Hhigh i) by lia.
    simpl. rewrite !orb_false_r. reflexivity.
  - rewrite (Hhigh (i - 16)), (Hhigh (i - 8)), (Hhigh i) by lia.
    rewrite !orb_false_r. reflexivity.
Qed.

(** ** [up_irqinitialize] *)

Lemma land_le_l a b : 0 <= a -> Z.land a b <= a.
Proof.
  intros Ha.
  assert (Hdiff : 0 <= Z.ldiff a b) by (apply Z.ldiff_nonneg; lia).
  assert (Hno : Z.land (Z.ldiff a b) (Z.land a b) = 0).
  { apply Z.bits_inj'. intros i Hi.
    rewrite !Z.land_spec, Z.ldiff_spec, Z.bits_0.
    destruct (Z.testbit a i), (Z.testbit b i); reflexivity. }
  pose proof (Z.add_nocarry_lor _ _ Hno) as Hsum.
  rewrite Z.lor_ldiff_and in Hsum. lia.
Qed.

Lemma u32_next a : u32 (u32 a + 4) = u32 (a + 4).
Proof. unfold u32. apply Zplus_mod_idemp_l. Qed.

Lemma put_loop_closed n val base :
  put_loop n val (u32 base)
  = (fun j : nat => RegPut val (u32 (base + 4 * Z.of_nat j))) <$> seq 0 n.
Proof.
  revert base. induction n as [| n IH]; intros base; [reflexivity |].
  simpl put_loop. rewrite u32_next, IH.
  cbn [seq fmap list_fmap]. rewrite <- fmap_S_seq, <- list_fmap_compose.
  f_equal.
  - do 2 f_equal. lia.
  - apply list_fmap_ext. intros _ j _. simpl. do 2 f_equal. lia.
Qed.

(** X21. With an [INTLINESNUM] mask between 0 and [2^28 - 1],
    [up_irqinitialize] reads [NVIC_ICTR] once and, with [n] one more
    than the masked value, stores 0 to the [n] consecutive enable
    registers from [NVIC_IRQ0_31_ENABLE], stores [DEFPRIORITY32] to
    the three exception priority registers and to the [8 * n]
    consecutive priority registers from [NVIC_IRQ0_3_PRIORITY], clears
    [current_regs], attaches the five handlers and only then enables
    interrupts. [n] is at least 1 and at most the mask plus 1. *)
Theorem irqinitialize_trace regs :
  0 <= NVIC_ICTR_INTLINESNUM_MASK < 2 ^ 28 ->
  let n := Z.to_nat (Z.land (u32 (regs NVIC_ICTR)) NVIC_ICTR_INTLINESNUM_MASK + 1) in
  (1 <= n <= Z.to_nat NVIC_ICTR_INTLINESNUM_MASK + 1)%nat
  /\ up_irqinitialize regs
     = [RegGet NVIC_ICTR]
       ++ ((fun j : nat => RegPut 0 (u32 (NVIC_IRQ0_31_ENABLE + 4 * Z.of_nat j)))
             <$> seq 0 n)
       ++ [RegPut DEFPRIORITY32 NVIC_SYSH4_7_PRIORITY;
           RegPut DEFPRIORITY32 NVIC_SYSH8_11_PRIORITY;
           RegPut DEFPRIORITY32 NVIC_SYSH12_15_PRIORITY]
       ++ ((fun j : nat =>
              RegPut DEFPRIORITY32 (u32 (NVIC_IRQ0_3_PRIORITY + 4 * Z.of_nat j)))
             <$> seq 0 (8 * n))
       ++ [CurrentRegsNull;
           IrqAttach TIVA_IRQ_SVCALL up_svcall;
           IrqAttach TIVA_IRQ_HARDFAULT up_hardfault;
           IrqAttach TIVA_IRQ_MEMFAULT up_memfault;
           IrqAttach TIVA_IRQ_BUSFAULT tiva_busfault;
           IrqAttach TIVA_IRQ_USAGEFAULT tiva_usagefault;
           IrqEnable].
Proof.
  intros Hmask n.
  assert (Hland : 0 <= Z.land (u32 (regs NVIC_ICTR)) NVIC_ICTR_INTLINESNUM_MASK
                  <= NVIC_ICTR_INTLINESNUM_MASK).
  { split.
    - apply Z.land_nonneg. right. lia.
    - rewrite Z.land_comm. apply land_le_l. lia. }
  split; [subst n; lia |].
  unfold up_irqinitialize, getreg32. rewrite !put_loop_closed.
  rewrite Z.shiftl_mul_pow2 by lia. change (2 ^ 3) with 8.
  replace (Z.to_nat
             ((Z.land (u32 (regs NVIC_ICTR)) NVIC_ICTR_INTLINESNUM_MASK + 1) * 8))
    with (8 * n)%nat by (subst n; lia).
  reflexivity.
Qed.

End ControllerFacts.


(** ** The theorems at [armv7m_map] *)

Lemma armv7m_banks_apart : @banks_apart armv7m_map 0.
Proof.
  intros j k Hj Hk.
  assert (Hjs : j = 0 \/ j = 1 \/ j = 2 \/ j = 3) by lia.
  assert (Hks : k = 0 \/ k = 1 \/ k = 2 \/ k = 3) by lia.
  destruct Hjs as [-> | [-> | [-> | ->]]];
    destruct Hks as [-> | [-> | [-> | ->]]];
    vm_compute; intros Heq; try reflexivity; discriminate Heq.
Defined.

Lemma armv7m_external_20 : @external armv7m_map 20.
Proof. unfold external, banks. simpl. lia. Defined.

Lemma armv7m_switchable_4 : @switchable armv7m_map 4.
Proof. split; [simpl; lia | left; reflexivity]. Defined.

Lemma irqinfo_external_injective_witness : (20 : Z) = 20.
Proof.
  apply (@irqinfo_external_injective armv7m_map 20 20 (0, 0) (7, 7) 0
           armv7m_banks_apart armv7m_external_20 armv7m_external_20).
  reflexivity.
Defined.

Lemma external_irq_single_store_witness :
  @up_enable_irq armv7m_map demo_regs (0, 0) 20 = [RegPut 16 0xe000e100]
  /\ @up_disable_irq armv7m_map demo_regs (0, 0) 20 = [RegPut 16 0xe000e180].
Proof.
  exact (@external_irq_single_store armv7m_map demo_regs (0, 0) 20
           armv7m_external_20).
Defined.

Lemma system_enable_then_disable_witness :
  exists regaddr bit v1 v2,
    (@tiva_irqinfo armv7m_map 4 (0, 0) NVIC_ENA_OFFSET).2
    = (regaddr, bit)
    /\ @up_enable_irq armv7m_map demo_regs (0, 0) 4
       = [RegGet regaddr; RegPut v1 regaddr]
    /\ @up_disable_irq armv7m_map (reg_set demo_regs regaddr v1) (7, 7) 4
       = [RegGet regaddr; RegPut v2 regaddr]
    /\ forall i, 0 <= i < 32 ->
         Z.testbit v1 i = Z.testbit (demo_regs regaddr) i || Z.testbit bit i
         /\ Z.testbit v2 i
            = Z.testbit (demo_regs regaddr) i && negb (Z.testbit bit i).
Proof.
  exact (@system_enable_then_disable armv7m_map demo_regs (0, 0) (7, 7) 4
           armv7m_switchable_4).
Defined.

Lemma prioritize_writes_one_lane_witness :
  exists v,
    @up_prioritize_irq armv7m_map demo_regs 21 0x40
    = (OK, [RegGet (@priority_reg armv7m_map 21);
            RegPut v (@priority_reg armv7m_map 21)])
    /\ 0 <= v < 2 ^ 32
    /\ forall i, 0 <= i < 32 ->
         Z.testbit v i
         = if decide (8 * @priority_lane armv7m_map 21 <= i
                      < 8 * @priority_lane armv7m_map 21 + 8)
           then Z.testbit 0x40 (i - 8 * @priority_lane armv7m_map 21)
           else Z.testbit (demo_regs (@priority_reg armv7m_map 21)) i.
Proof.
  apply (@prioritize_writes_one_lane armv7m_map demo_regs 21 0x40). lia.
Defined.

Lemma defpriority32_lanes_witness :
  Z.testbit (@DEFPRIORITY32 armv7m_map) 15
  = Z.testbit (@NVIC_SYSH_PRIORITY_DEFAULT armv7m_map) (15 mod 8).
Proof.
  apply (@defpriority32_lanes armv7m_map 15); simpl; lia.
Defined.

Lemma irqinitialize_trace_witness :
  (1 <= 3 <= Z.to_nat 0x1f + 1)%nat
  /\ @up_irqinitialize armv7m_map demo_regs
     = [RegGet 0xe000e004]
       ++ ((fun j : nat => RegPut 0 (u32 (0xe000e100 + 4 * Z.of_nat j)))
             <$> seq 0 3)
       ++ [RegPut (@DEFPRIORITY32 armv7m_map) 0xe000ed18;
           RegPut (@DEFPRIORITY32 armv7m_map) 0xe000ed1c;
           RegPut (@DEFPRIORITY32 armv7m_map) 0xe000ed20]
       ++ ((fun j : nat =>
              RegPut (@DEFPRIORITY32 armv7m_map)
                (u32 (0xe000e400 + 4 * Z.of_nat j)))
             <$> seq 0 (8 * 3))
       ++ [CurrentRegsNull; IrqAttach 11 up_svcall; IrqAttach 3 up_hardfault;
           IrqAttach 4 up_memfault; IrqAttach 5 tiva_busfault;
           IrqAttach 6 tiva_usagefault; IrqEnable].
Proof.
  apply (@irqinitialize_trace armv7m_map demo_regs). simpl. lia.
Defined.

End TivaFacts.
